(** * Metadata records of My-Wallet-V3 ([src/metadata.js])

    A shallow embedding of the metadata record protocol: the byte and
    string helpers the module relies on (Node's [Buffer] encodings,
    SHA-256, the Bitcoin message hash, [JSON.stringify] / [JSON.parse],
    [Object.freeze]), the static functions of [Metadata], and the
    promise-sequenced [create] / [update] / [fetch] operations of a
    record.

    Extent of the embedding. SHA-256, the base64 and hexadecimal
    encodings, the Bitcoin message hash and the JSON printer and parser
    are written out and run. [JSON.parse] reads the whole grammar of
    JSON; a number is kept as the decimal number its text denotes and is
    written the way JavaScript writes that number (the rounding of a
    long literal to the nearest double is not modelled). Strings are
    kept as their UTF-8 bytes (a buffer that is not UTF-8 is read as the
    bytes it holds, where [toString] puts replacement characters), and
    an object lists its own properties in
    the order they were defined (the place JavaScript gives to
    integer-like keys is not modelled). Signing, verification, the
    symmetric cipher, the key tree and what [Buffer.from] makes of a
    value that is not a string come from code that is not part of
    [metadata.js]; they are taken through an interface, and signing and
    encryption are taken to return. The promise chain of [next] is kept
    as a queue of callbacks. *)

From Stdlib Require Import List String Ascii NArith ZArith Bool Lia.
From Stdlib.Strings Require Import Byte.
From Stdlib Require Decimal DecimalString DecimalZ.
Import ListNotations.

Local Open Scope N_scope.

(** ** Buffers

    A Node [Buffer] is a sequence of bytes; a JavaScript string is a
    [string] (the embedding keeps strings as their UTF-8 bytes, so that
    [Buffer.from(str)] and [buff.toString()] are the two conversions of
    the standard library). *)

Definition Buffer := list byte.

Definition byte_of_N (n : N) : byte :=
  match Byte.of_N (n mod 256) with
  | Some b => b
  | None => x00
  end.

Definition StringToBuffer (s : string) : Buffer := list_byte_of_string s.
Definition BufferToString (b : Buffer) : string := string_of_list_byte b.

Definition Buffer_concat (l : list Buffer) : Buffer := List.concat l.

(** ** SHA-256 ([WalletCrypto.sha256], FIPS 180-4) *)

Module SHA256.

Definition mask32 : N := 0xFFFFFFFF.
Definition add32 (x y : N) : N := N.land (x + y) mask32.
Definition rotr (n x : N) : N :=
  N.land (N.lor (N.shiftr x n) (N.shiftl x (32 - n))) mask32.
Definition not32 (x : N) : N := N.lxor x mask32.

Definition Ch (x y z : N) : N := N.lxor (N.land x y) (N.land (not32 x) z).
Definition Maj (x y z : N) : N :=
  N.lxor (N.lxor (N.land x y) (N.land x z)) (N.land y z).
Definition Sigma0 (x : N) : N := N.lxor (N.lxor (rotr 2 x) (rotr 13 x)) (rotr 22 x).
Definition Sigma1 (x : N) : N := N.lxor (N.lxor (rotr 6 x) (rotr 11 x)) (rotr 25 x).
Definition sigma0 (x : N) : N := N.lxor (N.lxor (rotr 7 x) (rotr 18 x)) (N.shiftr x 3).
Definition sigma1 (x : N) : N := N.lxor (N.lxor (rotr 17 x) (rotr 19 x)) (N.shiftr x 10).

(** The constants are the first 32 bits of the fractional parts of the
    cube roots (round constants) and square roots (initial state) of the
    first primes. *)
Definition is_prime (n : nat) : bool :=
  forallb (fun d => negb (Nat.eqb (Nat.modulo n d) 0)) (seq 2 (n - 2)).

Definition primes : list N :=
  map N.of_nat (filter is_prime (seq 2 310)).

(** The largest [r] below [2 ^ bits] whose cube is at most [n]. *)
Fixpoint cube_root (bits : nat) (n r : N) : N :=
  match bits with
  | O => r
  | S b =>
      let c := r + N.shiftl 1 (N.of_nat b) in
      if c * c * c <=? n then cube_root b n c else cube_root b n r
  end.

Definition K : list N :=
  map (fun p => N.land (cube_root 36 (N.shiftl p 96) 0) mask32) primes.

Definition H0 : list N :=
  map (fun p => N.land (N.sqrt (N.shiftl p 64)) mask32) (firstn 8 primes).

(** Big-endian packing of bytes into 32-bit words and back. *)
Fixpoint words_of_bytes (l : list N) : list N :=
  match l with
  | a :: b :: c :: d :: r =>
      (N.shiftl a 24 + N.shiftl b 16 + N.shiftl c 8 + d) :: words_of_bytes r
  | _ => []
  end.

Definition bytes_of_word (w : N) : list N :=
  [ N.shiftr w 24 mod 256; N.shiftr w 16 mod 256; N.shiftr w 8 mod 256; w mod 256 ].

(** Message padding: a 1 bit, zeros up to 56 mod 64, the bit length on
    eight bytes. *)
Definition pad (msg : list N) : list N :=
  let len := N.of_nat (List.length msg) in
  let zeros := N.to_nat ((119 - len mod 64) mod 64) in
  let bits := len * 8 in
  msg ++ [0x80] ++ repeat 0 zeros
      ++ bytes_of_word (N.shiftr bits 32 mod 0x100000000)
      ++ bytes_of_word (bits mod 0x100000000).

(** The message schedule, kept most recent word first. *)
Fixpoint extend (n : nat) (rw : list N) : list N :=
  match n with
  | O => rw
  | S n' =>
      let w := add32 (add32 (sigma1 (nth 1 rw 0)) (nth 6 rw 0))
                     (add32 (sigma0 (nth 14 rw 0)) (nth 15 rw 0)) in
      extend n' (w :: rw)
  end.

Definition schedule (block : list N) : list N :=
  rev (extend 48 (rev (words_of_bytes block))).

Definition round (st : list N) (kw : N * N) : list N :=
  match st with
  | [a; b; c; d; e; f; g; h] =>
      let t1 := add32 (add32 (add32 h (Sigma1 e)) (add32 (Ch e f g) (fst kw))) (snd kw) in
      let t2 := add32 (Sigma0 a) (Maj a b c) in
      [add32 t1 t2; a; b; c; add32 d t1; e; f; g]
  | _ => st
  end.

Fixpoint add_words (x y : list N) : list N :=
  match x, y with
  | a :: x', b :: y' => add32 a b :: add_words x' y'
  | _, _ => []
  end.

Definition compress (st : list N) (block : list N) : list N :=
  add_words st (fold_left round (combine K (schedule block)) st).

Fixpoint blocks (fuel : nat) (st : list N) (l : list N) : list N :=
  match fuel with
  | O => st
  | S fuel' =>
      match l with
      | [] => st
      | _ => blocks fuel' (compress st (firstn 64 l)) (skipn 64 l)
      end
  end.

Definition digest (msg : list N) : list N :=
  let p := pad msg in
  flat_map bytes_of_word (blocks (List.length p) H0 p).

End SHA256.

Definition sha256 (b : Buffer) : Buffer :=
  map byte_of_N (SHA256.digest (map Byte.to_N b)).

(** ** Hexadecimal and base64 encodings of a [Buffer] *)

Module Hex.

Definition digit (n : N) : ascii :=
  if n <? 10 then ascii_of_N (48 + n) else ascii_of_N (87 + n).

Definition value (c : ascii) : option N :=
  let n := N_of_ascii c in
  if (48 <=? n) && (n <=? 57) then Some (n - 48)
  else if (97 <=? n) && (n <=? 102) then Some (n - 87)
  else if (65 <=? n) && (n <=? 70) then Some (n - 55)
  else None.

(** [buff.toString('hex')] *)
Fixpoint encode (b : Buffer) : string :=
  match b with
  | [] => EmptyString
  | x :: r =>
      let n := Byte.to_N x in
      String (digit (n / 16)) (String (digit (n mod 16)) (encode r))
  end.

(** [Buffer.from(s, 'hex')]: pairs of digits are read until the first
    pair that is not hexadecimal. *)
Fixpoint decode (s : string) : Buffer :=
  match s with
  | String c1 (String c2 r) =>
      match value c1, value c2 with
      | Some h, Some l => byte_of_N (16 * h + l) :: decode r
      | _, _ => []
      end
  | _ => []
  end.

(** A digit stands for its own value, and is no colon. *)
Definition digit_ok (n : N) : bool :=
  match value (digit n) with
  | Some m => N.eqb m n
  | None => false
  end.

Definition digit_plain (n : N) : bool := negb (Ascii.eqb (digit n) ":").

End Hex.

Module Base64.

Definition alphabet : string :=
  "ABCDEFGHIJKLMNOPQRSTUVWXYZabcdefghijklmnopqrstuvwxyz0123456789+/".

Definition char (n : N) : ascii :=
  match String.get (N.to_nat n) alphabet with
  | Some c => c
  | None => "="%char
  end.

(** The value of a character; Node also reads the URL-safe [-] and [_]. *)
Definition index (c : ascii) : option N :=
  let n := N_of_ascii c in
  if (65 <=? n) && (n <=? 90) then Some (n - 65)
  else if (97 <=? n) && (n <=? 122) then Some (n - 71)
  else if (48 <=? n) && (n <=? 57) then Some (n + 4)
  else if (n =? 43) || (n =? 45) then Some 62
  else if (n =? 47) || (n =? 95) then Some 63
  else None.

(** [buff.toString('base64')] *)
Fixpoint encode (b : Buffer) : string :=
  match b with
  | [] => EmptyString
  | [x] =>
      let n := Byte.to_N x in
      String (char (n / 4)) (String (char ((n mod 4) * 16)) "==")
  | [x; y] =>
      let n := Byte.to_N x in
      let m := Byte.to_N y in
      String (char (n / 4))
        (String (char ((n mod 4) * 16 + m / 16))
           (String (char ((m mod 16) * 4)) "="))
  | x :: y :: z :: r =>
      let n := Byte.to_N x in
      let m := Byte.to_N y in
      let k := Byte.to_N z in
      String (char (n / 4))
        (String (char ((n mod 4) * 16 + m / 16))
           (String (char ((m mod 16) * 4 + k / 64))
              (String (char (k mod 64)) (encode r))))
  end.

(** The 6-bit values of a base64 text: reading stops at the first [=],
    characters outside the alphabet are skipped. *)
Fixpoint sextets (s : string) : list N :=
  match s with
  | EmptyString => []
  | String c r =>
      if Ascii.eqb c "=" then []
      else match index c with
           | Some i => i :: sextets r
           | None => sextets r
           end
  end.

Fixpoint pack (l : list N) : Buffer :=
  match l with
  | a :: b :: c :: d :: r =>
      byte_of_N (a * 4 + b / 16)
        :: byte_of_N ((b mod 16) * 16 + c / 4)
        :: byte_of_N ((c mod 4) * 64 + d)
        :: pack r
  | [a; b; c] =>
      [byte_of_N (a * 4 + b / 16); byte_of_N ((b mod 16) * 16 + c / 4)]
  | [a; b] => [byte_of_N (a * 4 + b / 16)]
  | _ => []
  end.

(** [Buffer.from(s, 'base64')] *)
Definition decode (s : string) : Buffer := pack (sextets s).

(** A character of the alphabet stands for its own index and is not the
    padding. *)
Definition char_ok (i : N) : bool :=
  negb (Ascii.eqb (char i) "=")
  && match index (char i) with
     | Some j => N.eqb j i
     | None => false
     end.

(** Induction on a buffer, three bytes at a time. *)
Section triples.
Variable P : Buffer -> Prop.
Hypothesis H0 : P [].
Hypothesis H1 : forall x, P [x].
Hypothesis H2 : forall x y, P [x; y].
Hypothesis H3 : forall x y z r, P r -> P (x :: y :: z :: r).

Fixpoint by_triples (b : Buffer) : P b :=
  match b with
  | [] => H0
  | [x] => H1 x
  | [x; y] => H2 x y
  | x :: y :: z :: r => H3 x y z r (by_triples r)
  end.
End triples.

End Base64.

Definition B64ToBuffer (base64 : string) : Buffer := Base64.decode base64.
Definition BufferToB64 (buff : Buffer) : string := Base64.encode buff.

Local Close Scope N_scope.
Local Open Scope string_scope.

(** ** JavaScript values that JSON can represent

    Arrays and objects carry the flag that [Object.freeze] sets on the
    object itself (and on nothing below it). A number is the decimal
    number its text denotes: an integer [VNum z], or [VDec m p] for
    [m / 10 ^ p] when that is no integer ([m] then has no trailing
    zero). An object is the list of its own properties in enumeration
    order. *)

#[local] Unset Elimination Schemes.
Inductive jsval : Type :=
| VNull
| VBool (b : bool)
| VNum (z : Z)
| VStr (s : string)
| VArr (frozen : bool) (elems : list jsval)
| VObj (frozen : bool) (props : list (string * jsval))
| VDec (m : Z) (p : positive).
#[local] Set Elimination Schemes.

(** The induction principle that reaches the elements of arrays and the
    values of properties. *)
Section jsval_induction.
Variable P : jsval -> Prop.
Hypothesis Hnull : P VNull.
Hypothesis Hbool : forall b, P (VBool b).
Hypothesis Hnum : forall z, P (VNum z).
Hypothesis Hstr : forall s, P (VStr s).
Hypothesis Harr : forall fr l, Forall P l -> P (VArr fr l).
Hypothesis Hobj : forall fr l, Forall (fun kv => P (snd kv)) l -> P (VObj fr l).
Hypothesis Hdec : forall m p, P (VDec m p).

Fixpoint jsval_ind (v : jsval) : P v :=
  match v with
  | VNull => Hnull
  | VBool b => Hbool b
  | VNum z => Hnum z
  | VStr s => Hstr s
  | VArr fr l =>
      Harr fr l
        ((fix go (l : list jsval) : Forall P l :=
            match l with
            | [] => Forall_nil _
            | x :: r => Forall_cons x (jsval_ind x) (go r)
            end) l)
  | VObj fr l =>
      Hobj fr l
        ((fix go (l : list (string * jsval)) : Forall (fun kv => P (snd kv)) l :=
            match l with
            | [] => Forall_nil _
            | kv :: r => Forall_cons kv (jsval_ind (snd kv)) (go r)
            end) l)
  | VDec m p => Hdec m p
  end.
End jsval_induction.

Module JSON.

Definition dquote : ascii := "034"%char.
Definition backslash : ascii := "092"%char.

Definition str1 (c : ascii) : string := String c EmptyString.

Definition is_ws (c : ascii) : bool :=
  let n := N_of_ascii c in
  (n =? 32)%N || (n =? 9)%N || (n =? 10)%N || (n =? 13)%N.

Definition is_digit (c : ascii) : bool :=
  let n := N_of_ascii c in (48 <=? n)%N && (n <=? 57)%N.

(** *** JSON.stringify *)

Definition hex2 (n : N) : string :=
  String (Hex.digit (n / 16)) (str1 (Hex.digit (n mod 16))).

Definition escape_char (c : ascii) : string :=
  let n := N_of_ascii c in
  if (n =? 34)%N then String backslash (str1 dquote)
  else if (n =? 92)%N then String backslash (str1 backslash)
  else if (n =? 8)%N then String backslash "b"
  else if (n =? 12)%N then String backslash "f"
  else if (n =? 10)%N then String backslash "n"
  else if (n =? 13)%N then String backslash "r"
  else if (n =? 9)%N then String backslash "t"
  else if (n <? 32)%N then String backslash ("u00" ++ hex2 n)
  else str1 c.

Fixpoint escape (s : string) : string :=
  match s with
  | EmptyString => EmptyString
  | String c r => escape_char c ++ escape r
  end.

Definition quote (s : string) : string :=
  String dquote (escape s ++ str1 dquote).

(** *** Numbers as [Number.prototype.toString] writes them

    The decimal digits of the number, with the point or the exponent
    where the language puts them: an integer below [10 ^ 21] in full, a
    number with at most 21 digits before the point or at most six zeros
    behind it with a point, any other with an exponent. *)

Definition digits (p : positive) : string :=
  DecimalString.NilEmpty.string_of_uint (Pos.to_uint p).

Definition sign (z : Z) : string :=
  match z with
  | Zneg _ => "-"
  | _ => EmptyString
  end.

Fixpoint zeros (n : nat) : string :=
  match n with
  | O => EmptyString
  | S n' => String "0" (zeros n')
  end.

Fixpoint take (n : nat) (s : string) : string :=
  match n, s with
  | S n', String c r => String c (take n' r)
  | _, _ => EmptyString
  end.

Fixpoint drop (n : nat) (s : string) : string :=
  match n, s with
  | S n', String _ r => drop n' r
  | _, _ => s
  end.

(** The trailing zeros of [m] go to the exponent [t], at most [fuel] of
    them and, when [stop] is set, not beyond the exponent [0]. *)
Fixpoint strip10 (fuel : nat) (stop : bool) (m t : Z) : Z * Z :=
  match fuel with
  | O => (m, t)
  | S f =>
      if (m mod 10 =? 0)%Z && negb (stop && (0 <=? t)%Z)
      then strip10 f stop (m / 10) (t + 1)
      else (m, t)
  end.

(** Fuel for the trailing zeros of [m]: its number of bits. *)
Definition bits (m : Z) : nat := S (Z.to_nat (Z.log2 m)).

Definition exponent (e : Z) : string :=
  match e with
  | Zneg p => "e-" ++ digits p
  | Zpos p => "e+" ++ digits p
  | Z0 => "e+0"
  end.

(** [d.ddd e±x], the point left out behind a single digit. *)
Definition scientific (d : string) (e : Z) : string :=
  match d with
  | String c EmptyString => String c (exponent e)
  | String c r => String c (String "." (r ++ exponent e))
  | EmptyString => EmptyString
  end.

(** An integer. *)
Definition number (z : Z) : string :=
  match z with
  | Z0 => "0"
  | Zpos p | Zneg p =>
      if (Zpos p <? 10 ^ 21)%Z then sign z ++ digits p
      else
        sign z ++
        (let (s, t) := strip10 (bits (Zpos p)) false (Zpos p) 0 in
         let d := digits (Z.to_pos s) in
         scientific d (Z.of_nat (String.length d) + t - 1))
  end.

(** The number [m / 10 ^ p], where [m] is no multiple of [10]. *)
Definition decimal (m : Z) (p : positive) : string :=
  let d := digits (Z.to_pos (Z.abs m)) in
  let n := (Z.of_nat (String.length d) - Zpos p)%Z in
  sign m ++
  (if (0 <? n)%Z && (n <=? 21)%Z
   then take (Z.to_nat n) d ++ String "." (drop (Z.to_nat n) d)
   else if (-6 <? n)%Z && (n <=? 0)%Z
   then String "0" (String "." (zeros (Z.to_nat (- n)) ++ d))
   else scientific d (n - 1)).

Fixpoint join (l : list string) : string :=
  match l with
  | [] => EmptyString
  | [x] => x
  | x :: r => x ++ "," ++ join r
  end.

Fixpoint stringify (v : jsval) : string :=
  match v with
  | VNull => "null"
  | VBool true => "true"
  | VBool false => "false"
  | VNum z => number z
  | VDec m p => decimal m p
  | VStr s => quote s
  | VArr _ l => "[" ++ join (map stringify l) ++ "]"
  | VObj _ l =>
      "{" ++ join (map (fun kv => quote (fst kv) ++ ":" ++ stringify (snd kv)) l) ++ "}"
  end.

(** *** JSON.parse *)

Fixpoint skip_ws (s : string) : string :=
  match s with
  | String c r => if is_ws c then skip_ws r else s
  | EmptyString => s
  end.

(** UTF-8 bytes of a code point. The code unit of a [\uXXXX] escape is
    a code point by itself, unless it is the high half of a surrogate
    pair and the escape of the low half follows: the two then make one
    code point above [0xFFFF]. A half that stands alone is kept as the
    three bytes of its code unit. *)
Definition utf8 (cp : N) : string :=
  if (cp <? 0x80)%N then str1 (ascii_of_N cp)
  else if (cp <? 0x800)%N then
    String (ascii_of_N (0xC0 + cp / 64)) (str1 (ascii_of_N (0x80 + cp mod 64)))
  else if (cp <? 0x10000)%N then
    String (ascii_of_N (0xE0 + cp / 4096))
      (String (ascii_of_N (0x80 + (cp / 64) mod 64))
         (str1 (ascii_of_N (0x80 + cp mod 64))))
  else
    String (ascii_of_N (0xF0 + cp / 262144))
      (String (ascii_of_N (0x80 + (cp / 4096) mod 64))
         (String (ascii_of_N (0x80 + (cp / 64) mod 64))
            (str1 (ascii_of_N (0x80 + cp mod 64))))).

Definition high_surrogate (cp : N) : bool := (0xD800 <=? cp)%N && (cp <? 0xDC00)%N.
Definition low_surrogate (cp : N) : bool := (0xDC00 <=? cp)%N && (cp <? 0xE000)%N.
Definition surrogate_pair (hi lo : N) : N :=
  (0x10000 + (hi - 0xD800) * 1024 + (lo - 0xDC00))%N.

Definition hex4 (a b c d : ascii) : option N :=
  match Hex.value a, Hex.value b, Hex.value c, Hex.value d with
  | Some x, Some y, Some z, Some w => Some (((x * 16 + y) * 16 + z) * 16 + w)%N
  | _, _, _, _ => None
  end.

Definition unescape (e : ascii) : option ascii :=
  let n := N_of_ascii e in
  if (n =? 34)%N then Some dquote
  else if (n =? 92)%N then Some backslash
  else if (n =? 47)%N then Some "/"%char
  else if (n =? 98)%N then Some "008"%char
  else if (n =? 102)%N then Some "012"%char
  else if (n =? 110)%N then Some "010"%char
  else if (n =? 114)%N then Some "013"%char
  else if (n =? 116)%N then Some "009"%char
  else None.

Definition prepend (p : string) (r : option (string * string)) : option (string * string) :=
  match r with
  | Some (s, rest) => Some (p ++ s, rest)
  | None => None
  end.

(** The characters of a string literal, after its opening quote. *)
Fixpoint parse_chars (s : string) : option (string * string) :=
  match s with
  | EmptyString => None
  | String c r =>
      if Ascii.eqb c dquote then Some (EmptyString, r)
      else if Ascii.eqb c backslash then
        match r with
        | String e r' =>
            if Ascii.eqb e "u" then
              match r' with
              | String h1 (String h2 (String h3 (String h4 r''))) =>
                  match hex4 h1 h2 h3 h4 with
                  | Some cp =>
                      let single := prepend (utf8 cp) (parse_chars r'') in
                      if high_surrogate cp then
                        match r'' with
                        | String b (String u (String l1 (String l2 (String l3
                            (String l4 r6))))) =>
                            if Ascii.eqb b backslash && Ascii.eqb u "u" then
                              match hex4 l1 l2 l3 l4 with
                              | Some lo =>
                                  if low_surrogate lo then
                                    prepend (utf8 (surrogate_pair cp lo)) (parse_chars r6)
                                  else single
                              | None => single
                              end
                            else single
                        | _ => single
                        end
                      else single
                  | None => None
                  end
              | _ => None
              end
            else
              match unescape e with
              | Some ch => prepend (str1 ch) (parse_chars r')
              | None => None
              end
        | EmptyString => None
        end
      else if (N_of_ascii c <? 32)%N then None
      else prepend (str1 c) (parse_chars r)
  end.

(** The number grammar of JSON. *)
Fixpoint span_digits (s : string) : string * string :=
  match s with
  | String c r =>
      if is_digit c then let (d, rest) := span_digits r in (String c d, rest)
      else (EmptyString, s)
  | EmptyString => (EmptyString, EmptyString)
  end.

Definition leading_zero (d : string) : bool :=
  match d with
  | String c (String _ _) => Ascii.eqb c "0"
  | _ => false
  end.

Definition take_sign (s : string) : bool * string :=
  match s with
  | String c r => if Ascii.eqb c "-" then (true, r) else (false, s)
  | EmptyString => (false, s)
  end.

(** [int]: digits, with no zero in front of another digit. *)
Definition parse_int (s : string) : option (string * string) :=
  let (d, rest) := span_digits s in
  match d with
  | EmptyString => None
  | _ => if leading_zero d then None else Some (d, rest)
  end.

(** [frac]: a point and at least one digit, or nothing. *)
Definition parse_frac (s : string) : option (string * string) :=
  match s with
  | String c r =>
      if Ascii.eqb c "." then
        let (f, rest) := span_digits r in
        match f with
        | EmptyString => None
        | _ => Some (f, rest)
        end
      else Some (EmptyString, s)
  | EmptyString => Some (EmptyString, s)
  end.

Definition uint_value (d : string) : option Z :=
  match DecimalString.NilEmpty.uint_of_string d with
  | Some u => Some (Z.of_uint u)
  | None => None
  end.

(** [exp]: [e] or [E], a sign or none, and at least one digit; or
    nothing. *)
Definition parse_exp (s : string) : option (Z * string) :=
  match s with
  | String c r =>
      if Ascii.eqb c "e" || Ascii.eqb c "E" then
        let (neg, r1) :=
          match r with
          | String c' r' =>
              if Ascii.eqb c' "-" then (true, r')
              else if Ascii.eqb c' "+" then (false, r')
              else (false, r)
          | EmptyString => (false, r)
          end in
        let (x, rest) := span_digits r1 in
        match x, uint_value x with
        | String _ _, Some e => Some (if neg then (- e)%Z else e, rest)
        | _, _ => None
        end
      else Some (0%Z, s)
  | EmptyString => Some (0%Z, s)
  end.

(** The value of the digits [m] at the exponent [e]: an integer when it
    is one, and otherwise the number with its trailing zeros removed. *)
Definition number_value (neg : bool) (m e : Z) : jsval :=
  let signed (x : Z) := if neg then (- x)%Z else x in
  if (m =? 0)%Z then VNum 0
  else if (0 <=? e)%Z then VNum (signed (m * 10 ^ e)%Z)
  else
    let (m', e') := strip10 (bits m) true m e in
    if (e' =? 0)%Z then VNum (signed m') else VDec (signed m') (Z.to_pos (- e')).

Definition parse_number (s : string) : option (jsval * string) :=
  let (neg, s1) := take_sign s in
  match parse_int s1 with
  | Some (i, r1) =>
      match parse_frac r1 with
      | Some (f, r2) =>
          match parse_exp r2 with
          | Some (x, r3) =>
              match uint_value (i ++ f) with
              | Some m =>
                  Some (number_value neg m (x - Z.of_nat (String.length f)), r3)
              | None => None
              end
          | None => None
          end
      | None => None
      end
  | None => None
  end.

Fixpoint strip_prefix (p s : string) : option string :=
  match p, s with
  | EmptyString, _ => Some s
  | String a p', String b s' => if Ascii.eqb a b then strip_prefix p' s' else None
  | _, _ => None
  end.

Definition literal (p : string) (v : jsval) (s : string) : option (jsval * string) :=
  match strip_prefix p s with
  | Some rest => Some (v, rest)
  | None => None
  end.

(** Defining an own property: an existing key keeps its place and takes
    the new value, a new key goes last. *)
Fixpoint obj_set (props : list (string * jsval)) (k : string) (v : jsval)
  : list (string * jsval) :=
  match props with
  | [] => [(k, v)]
  | (k', v') :: r =>
      if String.eqb k' k then (k', v) :: r else (k', v') :: obj_set r k v
  end.

Fixpoint parse_value (fuel : nat) (s : string) : option (jsval * string) :=
  match fuel with
  | O => None
  | S fuel' =>
      match skip_ws s with
      | EmptyString => None
      | String c r =>
          if Ascii.eqb c "{" then
            match skip_ws r with
            | String c' r' =>
                if Ascii.eqb c' "}" then Some (VObj false [], r')
                else parse_members fuel' [] r
            | EmptyString => None
            end
          else if Ascii.eqb c "[" then
            match skip_ws r with
            | String c' r' =>
                if Ascii.eqb c' "]" then Some (VArr false [], r')
                else parse_elements fuel' [] r
            | EmptyString => None
            end
          else if Ascii.eqb c dquote then
            match parse_chars r with
            | Some (str, rest) => Some (VStr str, rest)
            | None => None
            end
          else if Ascii.eqb c "t" then literal "rue" (VBool true) r
          else if Ascii.eqb c "f" then literal "alse" (VBool false) r
          else if Ascii.eqb c "n" then literal "ull" VNull r
          else parse_number (String c r)
      end
  end
with parse_elements (fuel : nat) (acc : list jsval) (s : string)
  : option (jsval * string) :=
  match fuel with
  | O => None
  | S fuel' =>
      match parse_value fuel' s with
      | Some (v, r) =>
          match skip_ws r with
          | String c r' =>
              if Ascii.eqb c "," then parse_elements fuel' (acc ++ [v]) r'
              else if Ascii.eqb c "]" then Some (VArr false (acc ++ [v]), r')
              else None
          | EmptyString => None
          end
      | None => None
      end
  end
with parse_members (fuel : nat) (acc : list (string * jsval)) (s : string)
  : option (jsval * string) :=
  match fuel with
  | O => None
  | S fuel' =>
      match skip_ws s with
      | String q r =>
          if Ascii.eqb q dquote then
            match parse_chars r with
            | Some (k, r1) =>
                match skip_ws r1 with
                | String c r2 =>
                    if Ascii.eqb c ":" then
                      match parse_value fuel' r2 with
                      | Some (v, r3) =>
                          match skip_ws r3 with
                          | String c' r4 =>
                              if Ascii.eqb c' "," then
                                parse_members fuel' (obj_set acc k v) r4
                              else if Ascii.eqb c' "}" then
                                Some (VObj false (obj_set acc k v), r4)
                              else None
                          | EmptyString => None
                          end
                      | None => None
                      end
                    else None
                | EmptyString => None
                end
            | None => None
            end
          else None
      | EmptyString => None
      end
  end.

(** [JSON.parse]: [None] stands for the [SyntaxError] it throws. *)
Definition parse (s : string) : option jsval :=
  match parse_value (S (String.length s)) s with
  | Some (v, rest) =>
      match skip_ws rest with
      | EmptyString => Some v
      | _ => None
      end
  | None => None
  end.

End JSON.

(** [Object.freeze]: the flag of the object itself is set; a primitive
    is returned as it is. *)
Definition Object_freeze (v : jsval) : jsval :=
  match v with
  | VArr _ l => VArr true l
  | VObj _ l => VObj true l
  | _ => v
  end.

(** The value with every flag cleared: what a fresh parse of its
    serialization builds. *)
Fixpoint thaw (v : jsval) : jsval :=
  match v with
  | VArr _ l => VArr false (map thaw l)
  | VObj _ l => VObj false (map (fun kv => (fst kv, thaw (snd kv))) l)
  | _ => v
  end.

Fixpoint has_key (k : string) (l : list (string * jsval)) : bool :=
  match l with
  | [] => false
  | (k', _) :: r => String.eqb k' k || has_key k r
  end.

Fixpoint distinct_keys (l : list (string * jsval)) : bool :=
  match l with
  | [] => true
  | (k, _) :: r => negb (has_key k r) && distinct_keys r
  end.

(** A number that is not an integer is kept without trailing zeros. *)
Definition canonical (m : Z) : bool := negb (Z.abs m mod 10 =? 0)%Z.

(** A value is an actual JavaScript value when no object lists a key
    twice and no number is written in two ways. *)
Fixpoint well_formed (v : jsval) : bool :=
  match v with
  | VArr _ l => forallb well_formed l
  | VObj _ l => distinct_keys l && forallb (fun kv => well_formed (snd kv)) l
  | VDec m _ => canonical m
  | _ => true
  end.

(** Plain data: nothing in it is frozen. *)
Fixpoint plain (v : jsval) : bool :=
  match v with
  | VArr fr l => negb fr && forallb plain l
  | VObj fr l => negb fr && forallb (fun kv => plain (snd kv)) l
  | _ => true
  end.

(** *** Measures and predicates of the proofs about [JSON.parse] *)

Module JSONMeasures.
Import JSON.

(** Fuel that suffices to read a value back. *)
Fixpoint size (v : jsval) : nat :=
  match v with
  | VArr _ l => S (fold_right (fun x n => S (size x + n)) 0 l)
  | VObj _ l => S (fold_right (fun kv n => S (size (snd kv) + n)) 0 l)
  | _ => 1
  end.

Fixpoint all_digits (s : string) : bool :=
  match s with
  | String c r => is_digit c && all_digits r
  | EmptyString => true
  end.

(** The next character is no digit. *)
Definition no_digit (rest : string) : bool :=
  match rest with
  | String c _ => negb (is_digit c)
  | EmptyString => true
  end.

Definition starts_fraction (s : string) : bool :=
  match s with
  | String c _ => Ascii.eqb c "." || Ascii.eqb c "e" || Ascii.eqb c "E"
  | EmptyString => false
  end.

(** The next character ends a number: it is no digit and opens no
    fraction or exponent. *)
Definition ends_number (rest : string) : bool :=
  match rest with
  | EmptyString => true
  | String c _ => negb (is_digit c) && negb (starts_fraction rest)
  end.

(** The text of a fraction with the digits [f]. *)
Definition frac_text (f : string) : string :=
  match f with
  | EmptyString => EmptyString
  | _ => String "." f
  end.

(** What may follow a value inside a text. *)
Definition ends_value (rest : string) : bool :=
  match rest with
  | EmptyString => true
  | String c _ => Ascii.eqb c "," || Ascii.eqb c "]" || Ascii.eqb c "}"
  end.

(** A value never starts with white space or a closing bracket. *)
Definition opens_value (c : ascii) : bool :=
  negb (is_ws c) && negb (Ascii.eqb c "]") && negb (Ascii.eqb c "}").

(** The keys of [l] are absent from [acc]. *)
Definition fresh_keys (l acc : list (string * jsval)) : Prop :=
  forall k, has_key k l = true -> has_key k acc = false.

Definition thaw_prop (kv : string * jsval) : string * jsval := (fst kv, thaw (snd kv)).

(** One property of an object, as [JSON.stringify] writes it. *)
Definition member (kv : string * jsval) : string :=
  quote (fst kv) ++ ":" ++ stringify (snd kv).

(** A value as [JSON.parse] makes them: no key twice, nothing frozen. *)
Definition made (v : jsval) : Prop := well_formed v = true /\ plain v = true.

(** [v] is read back from its text, whatever follows. *)
Definition reads_back (v : jsval) : Prop :=
  well_formed v = true ->
  forall fuel rest, size v <= fuel -> ends_value rest = true ->
    parse_value fuel (stringify v ++ rest) = Some (thaw v, rest).

End JSONMeasures.

(** [R.prop]: an own property, [None] for [undefined]. *)
Fixpoint lookup (k : string) (l : list (string * jsval)) : option jsval :=
  match l with
  | [] => None
  | (k', v) :: r => if String.eqb k' k then Some v else lookup k r
  end.

Definition prop (k : string) (v : jsval) : option jsval :=
  match v with
  | VObj _ l => lookup k l
  | _ => None
  end.

Definition is_null (v : jsval) : bool :=
  match v with
  | VNull => true
  | _ => false
  end.

Definition truthy (v : jsval) : bool :=
  match v with
  | VNull => false
  | VBool b => b
  | VNum z => negb (z =? 0)%Z
  | VDec m _ => negb (m =? 0)%Z
  | VStr s => negb (String.eqb s EmptyString)
  | VArr _ _ => true
  | VObj _ _ => true
  end.

(** *** Assignments to a snapshot

    [o.k = x] and [a[i] = x] in strict code: refused on a frozen object
    ([None], a [TypeError]), carried out otherwise. An assignment below
    the top reaches the nested object through the reference its parent
    holds, so only the flag of the object assigned to is consulted. An
    element assigned past the end of an array lengthens the array; the
    places this leaves empty are kept as [null], which is what
    [JSON.stringify] writes for them. *)

Inductive key : Type :=
| Name (k : string)
| Index (i : nat).

Fixpoint list_set (l : list jsval) (i : nat) (x : jsval) : list jsval :=
  match l, i with
  | [], O => [x]
  | [], S i' => VNull :: list_set [] i' x
  | _ :: r, O => x :: r
  | y :: r, S i' => y :: list_set r i' x
  end.

Definition assign (o : jsval) (k : key) (x : jsval) : option jsval :=
  match o, k with
  | VObj false l, Name n => Some (VObj false (JSON.obj_set l n x))
  | VArr false l, Index i => Some (VArr false (list_set l i x))
  | _, _ => None
  end.

Definition child (o : jsval) (k : key) : option jsval :=
  match o, k with
  | VObj _ l, Name n => lookup n l
  | VArr _ l, Index i => nth_error l i
  | _, _ => None
  end.

Definition put_child (o : jsval) (k : key) (c : jsval) : option jsval :=
  match o, k with
  | VObj fr l, Name n => Some (VObj fr (JSON.obj_set l n c))
  | VArr fr l, Index i => Some (VArr fr (list_set l i c))
  | _, _ => None
  end.

Fixpoint assign_path (v : jsval) (path : list key) (x : jsval) : option jsval :=
  match path with
  | [] => None
  | [k] => assign v k x
  | k :: rest =>
      match child v k with
      | Some c =>
          match assign_path c rest x with
          | Some c' => put_child v k c'
          | None => None
          end
      | None => None
      end
  end.

(** ** Promises and thrown errors *)

Inductive reason : Type :=
| JsError (name message : string)
| ConnectError (message : string)
| ResponseText (text : string)
| Str (s : string).

Inductive promise (A : Type) : Type :=
| Resolved (a : A)
| Rejected (e : reason).
Arguments Resolved {A} a.
Arguments Rejected {A} e.

Definition bind {A B : Type} (p : promise A) (f : A -> promise B) : promise B :=
  match p with
  | Resolved a => f a
  | Rejected e => Rejected e
  end.

(** [p.catch(h)] *)
Definition catch {A : Type} (p : promise A) (h : reason -> promise A) : promise A :=
  match p with
  | Resolved a => Resolved a
  | Rejected e => h e
  end.

Notation "x <- p ;; k" := (bind p (fun x => k))
  (at level 61, p at next level, right associativity).

Definition TypeError : reason := JsError "TypeError" "".
Definition SyntaxError : reason := JsError "SyntaxError" "".

Definition JSON_parse (s : string) : promise jsval :=
  match JSON.parse s with
  | Some v => Resolved v
  | None => Rejected SyntaxError
  end.

(** [Metadata.toImmutable = R.compose(Object.freeze, JSON.parse, JSON.stringify)] *)
Definition toImmutable (v : jsval) : promise jsval :=
  v' <- JSON_parse (JSON.stringify v) ;; Resolved (Object_freeze v').

(** ** The Bitcoin message hash ([Bitcoin.message.magicHash]) *)

Record network : Type := { messagePrefix : string }.

Definition networks_bitcoin : network :=
  {| messagePrefix := String "024"%char "Bitcoin Signed Message:" ++ String "010"%char EmptyString |}.

(** [constants.getNetwork()] with [NETWORK: 'bitcoin'] *)
Definition constants_getNetwork : network := networks_bitcoin.

Fixpoint le_bytes (n : nat) (x : N) : Buffer :=
  match n with
  | O => []
  | S n' => byte_of_N x :: le_bytes n' (x / 256)
  end.

Definition varIntBuffer (n : N) : Buffer :=
  if (n <? 0xfd)%N then [byte_of_N n]
  else if (n <=? 0xffff)%N then byte_of_N 0xfd :: le_bytes 2 n
  else if (n <=? 0xffffffff)%N then byte_of_N 0xfe :: le_bytes 4 n
  else byte_of_N 0xff :: le_bytes 8 n.

Definition hash256 (b : Buffer) : Buffer := sha256 (sha256 b).

Definition magicHash (msg : string) (net : network) : Buffer :=
  let messageBuffer := StringToBuffer msg in
  hash256 (Buffer_concat
             [ StringToBuffer (messagePrefix net);
               varIntBuffer (N.of_nat (List.length messageBuffer));
               messageBuffer ]).

(** ** The collaborators

    Signatures ([Bitcoin.message.sign] / [verify], the key pair and its
    address), the key tree and the symmetric cipher
    ([WalletCrypto.encryptDataWithKey] / [decryptDataWithKey]) are used
    through their interface only. [None] stands for a thrown error.
    The cipher draws its initialisation vector afresh at every call:
    [encryptDataWithKey data key] stands for the text that the one call
    made for a write returns. [decryptDataWithKey] is handed whatever
    the response holds as its payload ([None] for [undefined]).
    [Buffer_from_value] is Node's [Buffer.from(value, encoding)] on a
    value that is not a string (the bytes of an array, a [TypeError] on
    a number). *)

Class Collaborators : Type := {
  ECPair : Type;
  getAddress : ECPair -> string;
  Bitcoin_message_sign : ECPair -> string -> Buffer;
  Bitcoin_message_verify : string -> option Buffer -> string -> option bool;
  encryptDataWithKey : string -> Buffer -> string;
  decryptDataWithKey : option jsval -> Buffer -> option string;
  Buffer_from_value : jsval -> option Buffer;
  HDNode : Type;
  deriveHardened : HDNode -> Z -> HDNode;
  keyPair : HDNode -> ECPair;
  privateKeyBuffer : HDNode -> Buffer
}.

(** What the codec expects of the cipher: it emits base64 text
    ([create] reads it with [B64ToBuffer]), and it decrypts what it
    encrypted under the same key. *)
Class CipherLaws (C : Collaborators) : Prop := {
  encrypt_base64 : forall data key,
    exists buff, encryptDataWithKey data key = BufferToB64 buff;
  decrypt_encrypt : forall data key,
    decryptDataWithKey (Some (VStr (encryptDataWithKey data key))) key = Some data
}.

(** Modelled from the spec: the symmetric cipher of the wallet
    ([WalletCrypto.encryptDataWithKey] and [decryptDataWithKey], of
    [wallet-crypto.js], which [metadata.js] requires and which is not
    among the sources). The spec has it as an AES-style symmetric
    encrypt/decrypt keyed by a 256-bit key; decoding is the inverse of
    encoding and fails if decryption or JSON parsing fails; and decoding
    with a different key must fail, not silently produce garbage that
    happens to parse. So: the cipher keeps the laws above, and what it
    returns under another key than the one that encrypted, if it returns
    at all, is no JSON text. *)
Class SpecCipher (C : Collaborators) : Prop := {
  spec_laws : CipherLaws C;
  spec_other_key : forall data key key' s,
    key' <> key ->
    decryptDataWithKey (Some (VStr (encryptDataWithKey data key))) key' = Some s ->
    JSON.parse s = None
}.

(** A number-or-missing constructor argument. *)
Inductive arg : Type :=
| Undefined
| Null
| Num (z : Z).

(** [a || d] on such an argument *)
Definition or_else (a : arg) (d : Z) : Z :=
  match a with
  | Num z => if (z =? 0)%Z then d else z
  | _ => d
  end.

Inductive method : Type := GET | PUT.

Inductive http_result : Type :=
| NetworkError (e : string)
| Response (status : Z) (body : string).

(** The body of a PUT. *)
Record envelope : Type := {
  version : Z;
  payload : string;
  signature : string;
  prev_magic_hash : option string;
  type_id : Z
}.

Section Metadata.

Context {C : Collaborators}.

Record Metadata : Type := {
  VERSION : Z;
  _typeId : Z;
  _magicHash : option Buffer;
  _address : string;
  _signKey : ECPair;
  _encKeyBuffer : option Buffer;
  _value : option jsval
}.

Definition constructor (ecPair : ECPair) (encKeyBuffer : option Buffer) (typeId : arg)
  : Metadata :=
  {| VERSION := 1;
     _typeId := or_else typeId (-1);
     _magicHash := None;
     _address := getAddress ecPair;
     _signKey := ecPair;
     _encKeyBuffer := encKeyBuffer;
     _value := None |}.

Definition existsOnServer (this : Metadata) : bool :=
  match _magicHash this with
  | Some _ => true
  | None => false
  end.

Definition PURPOSE : string := "info.blockchain.metadata".

(** *** Network *)

Definition checkStatus (m : method) (status : Z) (body : string) : promise jsval :=
  if ((200 <=? status) && (status <? 300))%Z then JSON_parse body
  else
    match m with
    | GET => if (status =? 404)%Z then Resolved VNull else Rejected (ResponseText body)
    | PUT => Rejected (ResponseText body)
    end.

(** [Metadata.request]: what the promise of a request settles to, given
    what the network did. *)
Definition request (m : method) (h : http_result) : promise jsval :=
  match h with
  | NetworkError e => Rejected (ConnectError e)
  | Response status body => checkStatus m status body
  end.

(** *** Chain *)

Definition encrypt (key : Buffer) (data : string) : string := encryptDataWithKey data key.

Definition decrypt (key : Buffer) (data : option jsval) : promise string :=
  match decryptDataWithKey data key with
  | Some s => Resolved s
  | None => Rejected (JsError "Error" "decrypt")
  end.

Definition message (payload : Buffer) (prevMagic : option Buffer) : string :=
  match prevMagic with
  | Some prevMagic =>
      let hash := sha256 payload in
      let buff := Buffer_concat [prevMagic; hash] in
      BufferToB64 buff
  | None => BufferToB64 payload
  end.

Definition magic (payload : Buffer) (prevMagic : option Buffer) : Buffer :=
  let msg := message payload prevMagic in
  magicHash msg constants_getNetwork.

Definition verify (address : string) (signature : option Buffer) (hash : string)
  : promise bool :=
  match Bitcoin_message_verify address signature hash with
  | Some b => Resolved b
  | None => Rejected (JsError "Error" "verify")
  end.

Definition sign (keyPair : ECPair) (msg : string) : Buffer :=
  Bitcoin_message_sign keyPair msg.

Definition computeSignature (key : ECPair) (payloadBuff : Buffer)
  (magicHash : option Buffer) : Buffer :=
  sign key (message payloadBuff magicHash).

(** [Buffer.from(v, enc)] on what a property holds: a string is decoded,
    [undefined] is refused, and any other value is for Node to read. *)
Definition Buffer_from (decode : string -> Buffer) (v : option jsval) : promise Buffer :=
  match v with
  | Some (VStr s) => Resolved (decode s)
  | Some v =>
      match Buffer_from_value v with
      | Some b => Resolved b
      | None => Rejected TypeError
      end
  | None => Rejected TypeError
  end.

(** [res.k ? Buffer.from(res.k, enc) : undefined] *)
Definition buffer_field (decode : string -> Buffer) (k : string) (res : jsval)
  : promise (option Buffer) :=
  match prop k res with
  | None => Resolved None
  | Some v =>
      if truthy v then b <- Buffer_from decode (Some v) ;; Resolved (Some b)
      else Resolved None
  end.

(** [Metadata.verifyResponse]: [null] passes through; otherwise the
    response comes back with [compute_new_magic_hash] next to it. *)
Definition verifyResponse (address : string) (res : jsval)
  : promise (option (jsval * Buffer)) :=
  match res with
  | VNull => Resolved None
  | _ =>
      sB <- buffer_field B64ToBuffer "signature" res ;;
      pB <- buffer_field B64ToBuffer "payload" res ;;
      mB <- buffer_field Hex.decode "prev_magic_hash" res ;;
      match pB with
      | None => Rejected TypeError
      | Some pB =>
          verified <- verify address sB (message pB mB) ;;
          if negb verified
          then Rejected (JsError "Error" "METADATA_SIGNATURE_VERIFICATION_ERROR")
          else Resolved (Some (res, magic pB mB))
      end
  end.

(** [Metadata.extractResponse] *)
Definition extractResponse (encKey : option Buffer) (res : jsval) : promise jsval :=
  match res with
  | VNull => Resolved VNull
  | _ =>
      match encKey with
      | Some encKey =>
          s <- decrypt encKey (prop "payload" res) ;; JSON_parse s
      | None =>
          b <- Buffer_from B64ToBuffer (prop "payload" res) ;;
          JSON_parse (BufferToString b)
      end
  end.

(** *** The steps of [create] *)

Definition encPayloadBuffer (this : Metadata) (payload : jsval) : Buffer :=
  match _encKeyBuffer this with
  | Some key => B64ToBuffer (encrypt key (JSON.stringify payload))
  | None => StringToBuffer (JSON.stringify payload)
  end.

Definition create_body (this : Metadata) (payload : jsval) : envelope :=
  let enc := encPayloadBuffer this payload in
  let signatureBuffer := computeSignature (_signKey this) enc (_magicHash this) in
  {| version := VERSION this;
     payload := BufferToB64 enc;
     signature := BufferToB64 signatureBuffer;
     prev_magic_hash := option_map Hex.encode (_magicHash this);
     type_id := _typeId this |}.

Definition set_value (this : Metadata) (v : jsval) : Metadata :=
  {| VERSION := VERSION this; _typeId := _typeId this; _magicHash := _magicHash this;
     _address := _address this; _signKey := _signKey this;
     _encKeyBuffer := _encKeyBuffer this; _value := Some v |}.

Definition set_magicHash (this : Metadata) (h : Buffer) : Metadata :=
  {| VERSION := VERSION this; _typeId := _typeId this; _magicHash := Some h;
     _address := _address this; _signKey := _signKey this;
     _encKeyBuffer := _encKeyBuffer this; _value := _value this |}.

(** The continuation of the PUT of [create]. *)
Definition create_then (this : Metadata) (payload : jsval) (enc : Buffer)
  (put : promise jsval) : Metadata * promise jsval :=
  match put with
  | Resolved _response =>
      let this1 := set_value this payload in
      let this2 := set_magicHash this1 (magic enc (_magicHash this1)) in
      (this2, Resolved payload)
  | Rejected e => (this, Rejected e)
  end.

(** *** The steps of [fetch]

    Each [then] of the chain runs on the record as the step before left
    it. *)

Definition saveMagicHash (this : Metadata) (res : option (jsval * Buffer))
  : Metadata * jsval :=
  match res with
  | None => (this, VNull)
  | Some (res, compute_new_magic_hash) => (set_magicHash this compute_new_magic_hash, res)
  end.

Definition saveValue (this : Metadata) (res : jsval) : Metadata * promise jsval :=
  match res with
  | VNull => (this, Resolved VNull)
  | _ =>
      match toImmutable res with
      | Resolved v => (set_value this v, Resolved res)
      | Rejected e => (this, Rejected e)
      end
  end.

Definition FETCH_FAILED : reason := Str "METADATA_FETCH_FAILED".

Definition fetch_then (this : Metadata) (get : promise jsval) : Metadata * promise jsval :=
  let (this', p) :=
    match get with
    | Rejected e => (this, Rejected e)
    | Resolved res =>
        match verifyResponse (_address this) res with
        | Rejected e => (this, Rejected e)
        | Resolved verified =>
            let (this1, res1) := saveMagicHash this verified in
            match extractResponse (_encKeyBuffer this1) res1 with
            | Rejected e => (this1, Rejected e)
            | Resolved value => saveValue this1 value
            end
        end
    end in
  (this', catch p (fun _ => Rejected FETCH_FAILED)).

(** *** The sequence of operations

    [next(f)] chains [f] behind [_sequence], which then waits for the
    result of [f] and swallows its outcome. The chain is kept as the
    list of the callbacks not yet run, with the one whose request is
    outstanding, if any. A callback runs on the record as it is when its
    turn comes. *)

Inductive task : Type :=
| TCreate (payload : jsval)
| TUnchanged (payload : jsval)
| TFetch.

Inductive outstanding : Type :=
| OCreate (payload : jsval) (enc : Buffer)
| OFetch.

Inductive event : Type :=
| Signed (msg : string)
| Sent (m : method) (endpoint : string) (data : option envelope).

Record world : Type := {
  record : Metadata;
  queue : list (nat * task);
  inflight : option (nat * outstanding);
  events : list event;
  settled : list (nat * promise jsval);
  calls : nat
}.

Definition idle (this : Metadata) : world :=
  {| record := this; queue := []; inflight := None; events := [];
     settled := []; calls := 0 |}.

(** Run the callbacks of the chain until one waits for the network. *)
Fixpoint pump (this : Metadata) (ev : list event) (st : list (nat * promise jsval))
  (n : nat) (q : list (nat * task)) : world :=
  match q with
  | [] => {| record := this; queue := []; inflight := None; events := ev;
             settled := st; calls := n |}
  | (id, t) :: q' =>
      match t with
      | TCreate payload =>
          let body := create_body this payload in
          {| record := this; queue := q';
             inflight := Some (id, OCreate payload (encPayloadBuffer this payload));
             events := (ev ++ [Signed (message (encPayloadBuffer this payload) (_magicHash this));
                               Sent PUT (_address this) (Some body)])%list;
             settled := st; calls := n |}
      | TUnchanged payload =>
          pump this ev (st ++ [(id, toImmutable payload)])%list n q'
      | TFetch =>
          {| record := this; queue := q'; inflight := Some (id, OFetch);
             events := (ev ++ [Sent GET (_address this) None])%list;
             settled := st; calls := n |}
      end
  end.

Definition next (w : world) (f : task) : world :=
  let q := (queue w ++ [(calls w, f)])%list in
  match inflight w with
  | Some _ =>
      {| record := record w; queue := q; inflight := inflight w;
         events := events w; settled := settled w; calls := S (calls w) |}
  | None => pump (record w) (events w) (settled w) (S (calls w)) q
  end.

(** [Metadata.prototype.create]: the snapshot is taken at the call. *)
Definition create (w : world) (payload : jsval) : world :=
  match toImmutable payload with
  | Resolved payload => next w (TCreate payload)
  | Rejected _ => w
  end.

Definition stringify_value (v : option jsval) : option string :=
  option_map JSON.stringify v.

Definition same_json (payload : jsval) (value : option jsval) : bool :=
  match stringify_value value with
  | Some s => String.eqb (JSON.stringify payload) s
  | None => false
  end.

(** [Metadata.prototype.update]: the comparison is made at the call. *)
Definition update (w : world) (payload : jsval) : world :=
  if same_json payload (_value (record w))
  then next w (TUnchanged payload)
  else create w payload.

(** [Metadata.prototype.fetch] *)
Definition fetch (w : world) : world := next w TFetch.

(** The network answers the outstanding request. *)
Definition deliver (w : world) (h : http_result) : world :=
  match inflight w with
  | None => w
  | Some (id, o) =>
      let (this', out) :=
        match o with
        | OCreate payload enc => create_then (record w) payload enc (request PUT h)
        | OFetch => fetch_then (record w) (request GET h)
        end in
      pump this' (events w) (settled w ++ [(id, out)])%list (calls w) (queue w)
  end.

Inductive input : Type :=
| Create (payload : jsval)
| Update (payload : jsval)
| Fetch
| Deliver (h : http_result).

Definition step (w : world) (i : input) : world :=
  match i with
  | Create v => create w v
  | Update v => update w v
  | Fetch => fetch w
  | Deliver h => deliver w h
  end.

Definition run (w : world) (l : list input) : world := fold_left step l w.

(** The inputs that are calls on the record (the others are answers of
    the network), and those whose payload is an actual value. *)
Definition is_call (i : input) : bool :=
  match i with
  | Deliver _ => false
  | _ => true
  end.

Definition payload_ok (i : input) : bool :=
  match i with
  | Create v | Update v => well_formed v
  | _ => true
  end.

(** The PUT bodies among the events, in order. *)
Fixpoint writes (ev : list event) : list envelope :=
  match ev with
  | [] => []
  | Sent PUT _ (Some body) :: r => body :: writes r
  | _ :: r => writes r
  end.

(** *** Constructors *)

Definition fromMetadataHDNode (metadataHDNode : HDNode) (typeId : Z) : Metadata :=
  let payloadTypeNode := deriveHardened metadataHDNode typeId in
  let node := deriveHardened payloadTypeNode 0 in
  let encryptionKey := sha256 (privateKeyBuffer (deriveHardened payloadTypeNode 1)) in
  constructor (keyPair node) (Some encryptionKey) (Num typeId).

Definition purpose_of (purposeString : string) : N :=
  let hash := sha256 (StringToBuffer purposeString) in
  match SHA256.words_of_bytes (map Byte.to_N (firstn 4 hash)) with
  | w :: _ => N.land w 0x7FFFFFFF
  | [] => 0%N
  end.

Definition masterToMetaNode (masterHDNode : HDNode) (purposeString : string) : HDNode :=
  deriveHardened masterHDNode (Z.of_N (purpose_of purposeString)).

Definition fromMasterHDNode (masterHDNode : HDNode) (typeId : Z) : Metadata :=
  fromMetadataHDNode (masterToMetaNode masterHDNode PURPOSE) typeId.

(** *** The codec of a record: what [create] puts on the wire for a
    value, and what [extractResponse] reads back from a response that
    carries it. *)

Definition encode (key : option Buffer) (v : jsval) : string :=
  match key with
  | Some k => BufferToB64 (B64ToBuffer (encrypt k (JSON.stringify v)))
  | None => BufferToB64 (StringToBuffer (JSON.stringify v))
  end.

Definition decode (key : option Buffer) (payload : string) : promise jsval :=
  extractResponse key (VObj false [("payload", VStr payload)]).

End Metadata.

(** ** The rest of the module *)

(** What a record expects of the signature primitives: the address of
    a key accepts what the key signed, and a signature is not empty. *)
Class SignatureLaws (C : Collaborators) : Prop := {
  verify_sign : forall key msg,
    Bitcoin_message_verify (getAddress key) (Some (Bitcoin_message_sign key msg)) msg
    = Some true;
  sign_nonempty : forall key msg, Bitcoin_message_sign key msg <> []
}.

(** The object that [create] hands to [Metadata.PUT]. *)
Definition envelope_value (e : envelope) : jsval :=
  VObj false
    [ ("version", VNum (version e));
      ("payload", VStr (payload e));
      ("signature", VStr (signature e));
      ("prev_magic_hash", match prev_magic_hash e with
                          | Some h => VStr h
                          | None => VNull
                          end);
      ("type_id", VNum (type_id e)) ].

(** [options.body = JSON.stringify(data)] in [Metadata.request] *)
Definition request_body (e : envelope) : string := JSON.stringify (envelope_value e).

Definition put_ok (h : http_result) : bool :=
  match request PUT h with
  | Resolved _ => true
  | Rejected _ => false
  end.

Section Rest.
Context {C : Collaborators}.

(** [Metadata.read]: the response of a GET goes to
    [extractResponse(null)] as it comes. *)
Definition read (h : http_result) : promise jsval :=
  res <- request GET h ;; extractResponse None res.

(** The record with another chain state. *)
Definition with_state (this : Metadata) (h : option Buffer) (v : option jsval)
  : Metadata :=
  {| VERSION := VERSION this; _typeId := _typeId this; _magicHash := h;
     _address := _address this; _signKey := _signKey this;
     _encKeyBuffer := _encKeyBuffer this; _value := v |}.

(** What a record is constructed with. *)
Definition identity (this : Metadata)
  : Z * Z * string * ECPair * option Buffer :=
  (VERSION this, _typeId this, _address this, _signKey this, _encKeyBuffer this).

(** The chain hash, when there is one, has the size of a digest. *)
Definition hash_sized (this : Metadata) : Prop :=
  forall h, _magicHash this = Some h -> List.length h = 32.

(** The identities of the calls still to settle, in the order of the
    chain. *)
Definition pending (w : world) : list nat :=
  (match inflight w with
   | Some (id, _) => [id]
   | None => []
   end ++ map fst (queue w))%list.

(** Every call made so far is settled or pending, once, in the order of
    the calls; and a callback waits only behind an outstanding request. *)
Definition in_sequence (w : world) : Prop :=
  (map fst (settled w) ++ pending w)%list = seq 0 (calls w)
  /\ (inflight w = None -> queue w = []).

(** The prior hashes that a run of writes sees, each write linking to
    the one before, and the hash the last one leaves. *)
Fixpoint links (this : Metadata) (h : option Buffer) (vs : list jsval)
  : list (option Buffer) :=
  match vs with
  | [] => []
  | v :: r =>
      h :: links this (Some (magic (encPayloadBuffer this (Object_freeze (thaw v))) h)) r
  end.

Definition chain (this : Metadata) (h : option Buffer) (vs : list jsval)
  : option Buffer :=
  fold_left (fun h v => Some (magic (encPayloadBuffer this (Object_freeze (thaw v))) h))
            vs h.

(** The record after a successful write of the snapshot [p], and the
    envelopes of successive successful writes. *)
Definition written (this : Metadata) (p : jsval) : Metadata :=
  fst (create_then this p (encPayloadBuffer this p) (Resolved VNull)).

Fixpoint bodies (this : Metadata) (ps : list jsval) : list envelope :=
  match ps with
  | [] => []
  | p :: r => create_body this p :: bodies (written this p) r
  end.

(** A world whose outstanding request is the PUT of [p], with the
    callbacks [q] of further writes behind it. *)
Definition writing (r : Metadata) (id : nat) (p : jsval) (q : list (nat * jsval))
  (ev : list event) (st : list (nat * promise jsval)) (n : nat) : world :=
  {| record := r;
     queue := map (fun ip => (fst ip, TCreate (snd ip))) q;
     inflight := Some (id, OCreate p (encPayloadBuffer r p));
     events := ev; settled := st; calls := n |}.

(** Calls of [create], each awaited before the next. *)
Fixpoint awaited (vs : list jsval) (hs : list http_result) : list input :=
  match vs, hs with
  | v :: vs', h :: hs' => Create v :: Deliver h :: awaited vs' hs'
  | _, _ => []
  end.

(** The callbacks of calls of [create] numbered from [n]. *)
Fixpoint creates_from (n : nat) (vs : list jsval) : list (nat * task) :=
  match vs with
  | [] => []
  | v :: r => (n, TCreate (Object_freeze (thaw v))) :: creates_from (S n) r
  end.

End Rest.

(** ** Stand-in collaborators

    A hash-based signature (the address is the hex digest of the key,
    a signature is the digest of that digest and the message), a
    cipher that seals the text under the name of its key and opens
    under that name only, a [Buffer.from] that reads the arrays of
    integers, and a key tree that hashes its path. They meet the
    interface and run; they are used to exercise the record on concrete
    inputs. *)

Module Double.

Fixpoint buffer_eqb (a b : Buffer) : bool :=
  match a, b with
  | [], [] => true
  | x :: a', y :: b' => Byte.eqb x y && buffer_eqb a' b'
  | _, _ => false
  end.

Definition address_of (key : Buffer) : string := Hex.encode (sha256 key).

Definition sign (key : Buffer) (msg : string) : Buffer :=
  sha256 (sha256 key ++ StringToBuffer msg)%list.

Definition verify (address : string) (signature : option Buffer) (msg : string)
  : option bool :=
  match signature with
  | Some s => Some (buffer_eqb s (sha256 (Hex.decode address ++ StringToBuffer msg)%list))
  | None => None
  end.

(** The name of a key on a sealed text. *)
Definition seal (key : Buffer) : string := Hex.encode key ++ ":".

Definition encrypt (data : string) (key : Buffer) : string :=
  BufferToB64 (StringToBuffer (seal key ++ data)).

Definition decrypt (data : option jsval) (key : Buffer) : option string :=
  match data with
  | Some (VStr text) => JSON.strip_prefix (seal key) (BufferToString (B64ToBuffer text))
  | _ => None
  end.

(** The bytes of an array of integers, each taken modulo 256. *)
Fixpoint bytes_of_elements (l : list jsval) : option Buffer :=
  match l with
  | [] => Some []
  | VNum z :: r =>
      match bytes_of_elements r with
      | Some b => Some (byte_of_N (Z.to_N (z mod 256)) :: b)
      | None => None
      end
  | _ :: _ => None
  end.

Definition from_value (v : jsval) : option Buffer :=
  match v with
  | VArr _ l => bytes_of_elements l
  | _ => None
  end.

Definition derive (node : Buffer) (index : Z) : Buffer :=
  sha256 (node ++ le_bytes 4 (Z.to_N index))%list.

#[export] Instance collaborators : Collaborators := {|
  ECPair := Buffer;
  getAddress := address_of;
  Bitcoin_message_sign := sign;
  Bitcoin_message_verify := verify;
  encryptDataWithKey := encrypt;
  decryptDataWithKey := decrypt;
  Buffer_from_value := from_value;
  HDNode := Buffer;
  deriveHardened := derive;
  keyPair := fun node => node;
  privateKeyBuffer := fun node => node
|}.

(** A record of the stand-in, fresh from its constructor. *)
Definition key : Buffer := StringToBuffer "key".
Definition fresh : Metadata := constructor key None Undefined.

(** A GET body that carries [payload] under the signature [sign] gives
    it on [prev]. *)
Definition body_of (payload : Buffer) (prev : option Buffer) (sig : Buffer) : string :=
  JSON.stringify
    (VObj false
       [ ("version", VNum 1);
         ("payload", VStr (BufferToB64 payload));
         ("signature", VStr (BufferToB64 sig));
         ("prev_magic_hash", match prev with
                             | Some h => VStr (Hex.encode h)
                             | None => VNull
                             end);
         ("type_id", VNum (-1)) ]).

Definition signed_body (payload : Buffer) (prev : option Buffer) : string :=
  body_of payload prev (sign key (message payload prev)).

(** Values and answers of the runs below. *)
Definition a1 : jsval := VObj false [("a", VNum 1)].
Definition a2 : jsval := VObj false [("a", VNum 2)].
Definition rates : jsval :=
  VObj false [("rate", VDec 15 1); ("fee", VDec (-25) 3); ("cap", VNum (10 ^ 21))].
Definition ok : http_result := Response 200 "{}".

(** A response that carries the text [oops] under a signature that is
    not the key's. *)
Definition forged : http_result :=
  Response 200 (body_of (StringToBuffer "oops") None (StringToBuffer "forged")).

Definition forged_res : jsval :=
  match JSON.parse (body_of (StringToBuffer "oops") None (StringToBuffer "forged")) with
  | Some v => v
  | None => VNull
  end.

(** What a GET hands on when it is answered with [h]. *)
Definition answer_value (h : http_result) : jsval :=
  match request GET h with
  | Resolved v => v
  | Rejected _ => VNull
  end.

(** The texts of [a1] and of [null], and answers that carry them in the
    clear under the signature of [key]. *)
Definition a1_text : Buffer := StringToBuffer (JSON.stringify a1).
Definition null_text : Buffer := StringToBuffer "null".
Definition a1_answer : http_result := Response 200 (signed_body a1_text None).
Definition null_answer : http_result := Response 200 (signed_body null_text None).

(** A record that holds a value and a chain hash. *)
Definition established : Metadata := with_state fresh (Some (sha256 [])) (Some a1).

End Double.

(** * Properties *)

(** ** Test vectors of the byte helpers *)

Example sha256_constants :
  List.length SHA256.K = 64%nat
  /\ firstn 2 SHA256.K = [0x428a2f98; 0x71374491]%N
  /\ nth 63 SHA256.K 0%N = 0xc67178f2%N
  /\ firstn 2 SHA256.H0 = [0x6a09e667; 0xbb67ae85]%N
  /\ nth 7 SHA256.H0 0%N = 0x5be0cd19%N.
Proof. vm_compute. repeat split; reflexivity. Qed.

Example sha256_empty :
  Hex.encode (sha256 []) =
  "e3b0c44298fc1c149afbf4c8996fb92427ae41e4649b934ca495991b7852b855".
Proof. vm_compute. reflexivity. Qed.

Example sha256_abc :
  Hex.encode (sha256 (StringToBuffer "abc")) =
  "ba7816bf8f01cfea414140de5dae2223b00361a396177a9cb410ff61f20015ad".
Proof. vm_compute. reflexivity. Qed.

Example sha256_two_blocks :
  Hex.encode (sha256 (StringToBuffer
    "abcdbcdecdefdefgefghfghighijhijkijkljklmklmnlmnomnopnopq")) =
  "248d6a61d20638b8e5c026930c3e6039a33ce45964ff2167f6ecedd419db06c1".
Proof. vm_compute. reflexivity. Qed.

Example base64_hello :
  BufferToB64 (StringToBuffer "hello") = "aGVsbG8="
  /\ BufferToString (B64ToBuffer "aGVsbG8=") = "hello".
Proof. vm_compute. split; reflexivity. Qed.

Example stringify_sample :
  JSON.stringify (VObj false [("a", VNum 1); ("b", VArr true [VBool true; VNull; VStr "x"])])
  = String "{" (JSON.quote "a" ++ ":1," ++ JSON.quote "b" ++ ":[true,null," ++ JSON.quote "x" ++ "]}").
Proof. vm_compute. reflexivity. Qed.

Example parse_sample :
  let v := VObj false [("a", VNum (-12)); ("b", VArr false [VBool true; VNull; VStr "x y"; VObj false []])] in
  JSON.parse (JSON.stringify v) = Some v.
Proof. vm_compute. reflexivity. Qed.

Example parse_rejects :
  JSON.parse "x" = None /\ JSON.parse "01" = None /\ JSON.parse "[1,]" = None
  /\ JSON.parse " [ 1 , 2 ] " = Some (VArr false [VNum 1; VNum 2]).
Proof. vm_compute. repeat split; reflexivity. Qed.

(** ** Strings *)

Lemma append_assoc (a b c : string) : (a ++ b) ++ c = a ++ (b ++ c).
Proof. induction a as [|x a IH]; simpl; [reflexivity | now rewrite IH]. Qed.

Lemma append_nil_r (a : string) : a ++ EmptyString = a.
Proof. induction a as [|x a IH]; simpl; [reflexivity | now rewrite IH]. Qed.

Lemma length_append (a b : string) :
  String.length (a ++ b) = String.length a + String.length b.
Proof. induction a as [|x a IH]; simpl; [reflexivity | now rewrite IH]. Qed.

(** ** [JSON.parse] reads back what [JSON.stringify] writes *)

Module JSONFacts.
Import JSON JSONMeasures.

Ltac each_char c := destruct c as [[] [] [] [] [] [] [] []].

Lemma parse_chars_escape_char (c : ascii) (r : string) :
  parse_chars (escape_char c ++ r) = prepend (str1 c) (parse_chars r).
Proof. each_char c; reflexivity. Qed.

Lemma parse_chars_escape (s rest : string) :
  parse_chars (escape s ++ String dquote rest) = Some (s, rest).
Proof.
  induction s as [|c s IH]; simpl.
  - reflexivity.
  - rewrite append_assoc, parse_chars_escape_char, IH. reflexivity.
Qed.

Lemma span_digits_all (d rest : string) :
  all_digits d = true -> no_digit rest = true -> span_digits (d ++ rest) = (d, rest).
Proof.
  intros Hd Hrest. induction d as [|c d IH]; simpl in *.
  - destruct rest as [|c rest]; [reflexivity|]. simpl in *.
    apply negb_true_iff in Hrest. now rewrite Hrest.
  - apply andb_prop in Hd as [Hc Hd]. rewrite Hc, IH by assumption. reflexivity.
Qed.

Lemma all_digits_uint (u : Decimal.uint) :
  all_digits (DecimalString.NilEmpty.string_of_uint u) = true.
Proof. induction u; simpl; try assumption; reflexivity. Qed.

Lemma all_digits_app (a b : string) :
  all_digits (a ++ b) = all_digits a && all_digits b.
Proof.
  induction a as [|c a IH]; simpl; [reflexivity|]. now rewrite IH, andb_assoc.
Qed.

Lemma all_digits_zeros (n : nat) : all_digits (zeros n) = true.
Proof. induction n; simpl; [reflexivity | assumption]. Qed.

Lemma take_drop (n : nat) (s : string) : take n s ++ drop n s = s.
Proof.
  revert s. induction n as [|n IH]; intros [|c s]; simpl; try reflexivity.
  now rewrite IH.
Qed.

Lemma length_drop (n : nat) (s : string) :
  String.length (drop n s) = String.length s - n.
Proof.
  revert s. induction n as [|n IH]; intros [|c s]; simpl; try reflexivity.
  apply IH.
Qed.

Lemma all_digits_take (n : nat) (s : string) :
  all_digits s = true -> all_digits (take n s) = true.
Proof.
  intros H. rewrite <- (take_drop n s), all_digits_app in H.
  now apply andb_prop in H as [H _].
Qed.

Lemma all_digits_drop (n : nat) (s : string) :
  all_digits s = true -> all_digits (drop n s) = true.
Proof.
  intros H. rewrite <- (take_drop n s), all_digits_app in H.
  now apply andb_prop in H as [_ H].
Qed.

Lemma length_zeros (n : nat) : String.length (zeros n) = n.
Proof. induction n; simpl; [reflexivity | now rewrite IHn]. Qed.

(** **** The digits of a positive number *)

Lemma unorm_fixed_head (u u' : Decimal.uint) :
  Decimal.unorm u = Decimal.D0 u' -> u' = Decimal.Nil.
Proof.
  induction u; simpl; try discriminate; try (intros [= <-]; reflexivity).
  - exact IHu.
Qed.

Lemma to_uint_normal (p : positive) : Decimal.unorm (Pos.to_uint p) = Pos.to_uint p.
Proof.
  pose proof (DecimalZ.to_of (Z.to_int (Zpos p))) as H.
  rewrite DecimalZ.of_to in H. simpl in H. injection H as H. now symmetry.
Qed.

Lemma digits_all (p : positive) : all_digits (digits p) = true.
Proof. apply all_digits_uint. Qed.

Lemma digits_head (p : positive) :
  exists c r, digits p = String c r /\ is_digit c = true /\ Ascii.eqb c "0" = false.
Proof.
  unfold digits.
  pose proof (DecimalPos.Unsigned.to_uint_nonnil p) as Hnil.
  pose proof (to_uint_normal p) as Hnorm.
  pose proof (DecimalPos.Unsigned.of_to p) as Hval.
  destruct (Pos.to_uint p) as [|u|u|u|u|u|u|u|u|u|u]; try congruence;
    try (simpl; eexists _, _; repeat split; reflexivity).
  apply unorm_fixed_head in Hnorm. subst u. discriminate Hval.
Qed.

Lemma uint_value_digits (p : positive) : uint_value (digits p) = Some (Zpos p).
Proof.
  unfold uint_value, digits. rewrite DecimalString.NilEmpty.usu.
  unfold Z.of_uint. now rewrite DecimalPos.Unsigned.of_to.
Qed.

Lemma uint_value_zero (s : string) : uint_value (String "0" s) = uint_value s.
Proof.
  unfold uint_value. simpl.
  destruct (DecimalString.NilEmpty.uint_of_string s); reflexivity.
Qed.

Lemma uint_value_zeros (n : nat) (s : string) : uint_value (zeros n ++ s) = uint_value s.
Proof. induction n; simpl; [reflexivity|]. now rewrite uint_value_zero. Qed.

Lemma digits_length (p : positive) : 0 < String.length (digits p).
Proof. destruct (digits_head p) as (c & r & -> & _). simpl. lia. Qed.

(** **** Trailing zeros *)

Lemma strip10_value (fuel : nat) (stop : bool) (m t : Z) :
  (0 < m)%Z -> (0 <= t)%Z ->
  let (s, t') := strip10 fuel stop m t in
  (0 < s)%Z /\ (t <= t')%Z /\ (m * 10 ^ t = s * 10 ^ t')%Z.
Proof.
  revert m t. induction fuel as [|f IH]; intros m t Hm Ht; cbn [strip10].
  - repeat split; lia.
  - destruct ((m mod 10 =? 0)%Z && negb (stop && (0 <=? t)%Z)) eqn:E.
    + apply andb_prop in E as [E _]. apply Z.eqb_eq in E.
      assert (m = 10 * (m / 10))%Z as Hdiv by (pose proof (Z.div_mod m 10); lia).
      specialize (IH (m / 10) (t + 1))%Z.
      destruct (strip10 f stop (m / 10) (t + 1)) as [s t'].
      destruct IH as (Hs & Ht' & Hv); [lia | lia |].
      repeat split; [assumption | lia |].
      rewrite <- Hv, Z.pow_add_r by lia. rewrite Hdiv at 1. ring.
    + repeat split; lia.
Qed.

Lemma strip10_canonical (fuel : nat) (m t : Z) :
  canonical m = true -> strip10 fuel true m t = (m, t).
Proof.
  unfold canonical. intros H. apply negb_true_iff in H.
  destruct fuel as [|f]; [reflexivity|]. cbn [strip10].
  assert ((m mod 10 =? 0)%Z = false) as ->; [|reflexivity].
  apply Z.eqb_neq. apply Z.eqb_neq in H. intros E. apply H.
  destruct m as [|p|p]; cbn [Z.abs] in *; try assumption.
  rewrite <- (Z.opp_involutive (Zpos p)). change (- Zpos p)%Z with (Zneg p).
  pose proof (Z.mod_opp_l_z (Zneg p) 10 ltac:(lia) E). assumption.
Qed.


(** **** The parts of a number *)

Lemma ends_number_no_digit (rest : string) : ends_number rest = true -> no_digit rest = true.
Proof.
  destruct rest as [|c rest]; [reflexivity|]. simpl. intros H.
  now apply andb_prop in H as [H _].
Qed.

Lemma parse_frac_none (rest : string) :
  ends_number rest = true -> parse_frac rest = Some (EmptyString, rest).
Proof.
  destruct rest as [|c rest]; [reflexivity|]. simpl. intros H.
  apply andb_prop in H as [_ H]. apply negb_true_iff in H.
  apply orb_false_elim in H as [H _]. apply orb_false_elim in H as [H _].
  now rewrite H.
Qed.

Lemma parse_exp_none (rest : string) :
  ends_number rest = true -> parse_exp rest = Some (0%Z, rest).
Proof.
  destruct rest as [|c rest]; [reflexivity|]. simpl. intros H.
  apply andb_prop in H as [_ H]. apply negb_true_iff in H.
  apply orb_false_elim in H as [H H2]. apply orb_false_elim in H as [_ H1].
  now rewrite H1, H2.
Qed.

Lemma parse_frac_text (f tail : string) :
  all_digits f = true -> no_digit tail = true ->
  (f = EmptyString -> parse_frac tail = Some (EmptyString, tail)) ->
  parse_frac (frac_text f ++ tail) = Some (f, tail).
Proof.
  intros Hf Htail Hnone. destruct f as [|c f]; [now apply Hnone|].
  change (frac_text (String c f) ++ tail) with (String "." (String c f ++ tail)).
  cbn [parse_frac]. change (Ascii.eqb "." ".") with true. cbv iota.
  rewrite span_digits_all by assumption. reflexivity.
Qed.

Lemma parse_int_digits (i tail : string) :
  all_digits i = true -> i <> EmptyString -> leading_zero i = false ->
  no_digit tail = true ->
  parse_int (i ++ tail) = Some (i, tail).
Proof.
  intros Hi Hne Hz Htail. unfold parse_int.
  rewrite span_digits_all by assumption.
  destruct i; [congruence|]. now rewrite Hz.
Qed.

Lemma digit_not_minus (c : ascii) : is_digit c = true -> Ascii.eqb c "-" = false.
Proof. each_char c; intros H; try discriminate H; reflexivity. Qed.

Lemma frac_text_no_digit (f tail : string) :
  no_digit tail = true -> no_digit (frac_text f ++ tail) = true.
Proof. intros H. destruct f; [exact H | reflexivity]. Qed.

(** A text made of a sign, digits, a fraction and what [parse_exp]
    reads is read as those parts. *)
Lemma parse_number_parts (neg : bool) (i f tail r3 : string) (x : Z) :
  all_digits i = true -> i <> EmptyString -> leading_zero i = false ->
  all_digits f = true -> no_digit tail = true ->
  (f = EmptyString -> parse_frac tail = Some (EmptyString, tail)) ->
  parse_exp tail = Some (x, r3) ->
  parse_number ((if neg then "-" else EmptyString) ++ i ++ frac_text f ++ tail)
  = match uint_value (i ++ f) with
    | Some m => Some (number_value neg m (x - Z.of_nat (String.length f)), r3)
    | None => None
    end.
Proof.
  intros Hi Hne Hz Hf Htail Hnone Hexp. unfold parse_number.
  assert (take_sign ((if neg then "-" else EmptyString) ++ i ++ frac_text f ++ tail)
          = (neg, i ++ frac_text f ++ tail)) as ->.
  { destruct neg; [reflexivity|]. destruct i as [|c i]; [congruence|].
    simpl in Hi |- *. apply andb_prop in Hi as [Hc _].
    now rewrite (digit_not_minus c Hc). }
  rewrite parse_int_digits by (try assumption; now apply frac_text_no_digit).
  rewrite parse_frac_text by assumption. rewrite Hexp. reflexivity.
Qed.

Lemma parse_exp_exponent (e : Z) (rest : string) :
  no_digit rest = true -> parse_exp (exponent e ++ rest) = Some (e, rest).
Proof.
  intros Hrest. destruct e as [|p|p]; unfold exponent.
  - change ("e+0" ++ rest) with (String "e" (String "+" ("0" ++ rest))).
    cbn [parse_exp]. change (Ascii.eqb "e" "e" || Ascii.eqb "e" "E") with true.
    change (Ascii.eqb "+" "-") with false. change (Ascii.eqb "+" "+") with true.
    cbv iota. rewrite (span_digits_all "0") by (reflexivity || assumption).
    reflexivity.
  - change (("e+" ++ digits p) ++ rest) with (String "e" (String "+" (digits p ++ rest))).
    cbn [parse_exp]. change (Ascii.eqb "e" "e" || Ascii.eqb "e" "E") with true.
    change (Ascii.eqb "+" "-") with false. change (Ascii.eqb "+" "+") with true.
    cbv iota. rewrite span_digits_all by (apply digits_all || assumption).
    pose proof (uint_value_digits p) as Hv.
    destruct (digits_head p) as (c & r & E & _). rewrite E in *. now rewrite Hv.
  - change (("e-" ++ digits p) ++ rest) with (String "e" (String "-" (digits p ++ rest))).
    cbn [parse_exp]. change (Ascii.eqb "e" "e" || Ascii.eqb "e" "E") with true.
    change (Ascii.eqb "-" "-") with true.
    cbv iota. rewrite span_digits_all by (apply digits_all || assumption).
    pose proof (uint_value_digits p) as Hv.
    destruct (digits_head p) as (c & r & E & _). rewrite E in *. now rewrite Hv.
Qed.

Lemma exponent_head (e : Z) (rest : string) :
  exists r, exponent e ++ rest = String "e" r.
Proof. destruct e; simpl; eauto. Qed.

(** The text [scientific d e] is read as the digits [d] at the exponent
    [e]. *)
Lemma parse_number_scientific (neg : bool) (p : positive) (e : Z) (rest : string) :
  no_digit rest = true ->
  parse_number ((if neg then "-" else EmptyString) ++ scientific (digits p) e ++ rest)
  = Some (number_value neg (Zpos p) (e - Z.of_nat (String.length (digits p) - 1)), rest).
Proof.
  intros Hrest. pose proof (digits_all p) as Hall.
  pose proof (uint_value_digits p) as Hval.
  destruct (digits_head p) as (c & r & E & Hc & Hc0). rewrite E in *.
  assert (scientific (String c r) e ++ rest
          = str1 c ++ frac_text r ++ exponent e ++ rest) as ->.
  { destruct r as [|c' r]; [reflexivity|]. simpl. now rewrite append_assoc. }
  simpl in Hall. apply andb_prop in Hall as [_ Hr].
  destruct (exponent_head e rest) as [tl Htl].
  rewrite (parse_number_parts neg (str1 c) r (exponent e ++ rest) rest e).
  - change (str1 c ++ r) with (String c r). rewrite Hval.
    do 3 f_equal. simpl. lia.
  - simpl. now rewrite Hc.
  - discriminate.
  - reflexivity.
  - assumption.
  - rewrite Htl. reflexivity.
  - intros _. rewrite Htl. reflexivity.
  - now apply parse_exp_exponent.
Qed.


Lemma sign_text (z : Z) (p : positive) :
  z = Zpos p \/ z = Zneg p ->
  sign z = (if (z <? 0)%Z then "-" else EmptyString).
Proof. intros [->| ->]; reflexivity. Qed.

Lemma number_value_integer (neg : bool) (s t : Z) :
  (0 < s)%Z -> (0 <= t)%Z ->
  number_value neg s t = VNum (if neg then - (s * 10 ^ t) else s * 10 ^ t)%Z.
Proof.
  intros Hs Ht. unfold number_value.
  destruct (Z.eqb_spec s 0); [lia|].
  destruct (Z.leb_spec 0 t); [reflexivity | lia].
Qed.

Lemma number_value_decimal (m : Z) (p : positive) :
  canonical m = true ->
  number_value (m <? 0)%Z (Z.abs m) (- Zpos p) = VDec m p.
Proof.
  intros Hc. unfold number_value.
  assert (m <> 0)%Z as Hm by (intros ->; discriminate Hc).
  destruct (Z.eqb_spec (Z.abs m) 0); [lia|].
  change (0 <=? - Z.pos p)%Z with false. cbv iota.
  rewrite strip10_canonical
    by (unfold canonical in *; now rewrite Z.abs_idemp).
  change (- Z.pos p =? 0)%Z with false. cbv iota.
  change (Z.to_pos (- - Z.pos p)) with p.
  destruct m as [|q|q]; [congruence | reflexivity | reflexivity].
Qed.

(** [JSON.parse] reads an integer back from its text. *)
Lemma parse_number_number (z : Z) (rest : string) :
  ends_number rest = true ->
  parse_number (number z ++ rest) = Some (VNum z, rest).
Proof.
  intros Hrest. pose proof (ends_number_no_digit _ Hrest) as Hnd.
  assert (forall (neg : bool) (p : positive),
            parse_number ((if neg then "-" else EmptyString) ++ digits p ++ rest)
            = Some (VNum (if neg then Zneg p else Zpos p), rest)) as Hplain.
  { intros neg p. destruct (digits_head p) as (c & r & E & Hc & Hc0).
    pose proof (parse_number_parts neg (digits p) EmptyString rest rest 0) as H.
    cbn [frac_text append] in H. rewrite H; clear H.
    - rewrite append_nil_r, uint_value_digits.
      rewrite number_value_integer by (simpl; lia).
      destruct neg; do 3 f_equal; simpl; lia.
    - apply digits_all.
    - rewrite E. discriminate.
    - rewrite E. simpl. destruct r; [reflexivity | exact Hc0].
    - reflexivity.
    - assumption.
    - intros _. now apply parse_frac_none.
    - now apply parse_exp_none. }
  assert (forall (neg : bool) (p : positive),
            parse_number
              ((if neg then "-" else EmptyString)
               ++ (let (s, t) := strip10 (bits (Zpos p)) false (Zpos p) 0 in
                   let d := digits (Z.to_pos s) in
                   scientific d (Z.of_nat (String.length d) + t - 1)) ++ rest)
            = Some (VNum (if neg then Zneg p else Zpos p), rest)) as Hbig.
  { intros neg p.
    pose proof (strip10_value (bits (Zpos p)) false (Zpos p) 0) as Hv.
    destruct (strip10 (bits (Zpos p)) false (Zpos p) 0) as [s t].
    destruct Hv as (Hs & Ht & Hv); [lia | lia |].
    rewrite parse_number_scientific by assumption.
    rewrite Z2Pos.id by assumption.
    pose proof (digits_length (Z.to_pos s)) as Hlen.
    replace (Z.of_nat (String.length (digits (Z.to_pos s))) + t - 1
             - Z.of_nat (String.length (digits (Z.to_pos s)) - 1))%Z with t by lia.
    rewrite number_value_integer by assumption.
    rewrite <- Hv. destruct neg; do 3 f_equal; simpl; lia. }
  destruct z as [|p|p]; cbn [number].
  - pose proof (parse_number_parts false "0" EmptyString rest rest 0) as H.
    cbn [frac_text append] in H. cbn [append]. rewrite H; clear H;
      try reflexivity; try assumption; try discriminate.
    + intros _. now apply parse_frac_none.
    + now apply parse_exp_none.
  - destruct (Z.pos p <? 10 ^ 21)%Z;
      [exact (Hplain false p) | exact (Hbig false p)].
  - destruct (Z.pos p <? 10 ^ 21)%Z;
      [exact (Hplain true p) | exact (Hbig true p)].
Qed.

(** [JSON.parse] reads a number that is not an integer back from its
    text. *)
Lemma parse_number_decimal (m : Z) (p : positive) (rest : string) :
  canonical m = true -> ends_number rest = true ->
  parse_number (decimal m p ++ rest) = Some (VDec m p, rest).
Proof.
  intros Hc Hrest. pose proof (ends_number_no_digit _ Hrest) as Hnd.
  assert (m <> 0)%Z as Hm by (intros ->; discriminate Hc).
  unfold decimal.
  set (q := Z.to_pos (Z.abs m)).
  assert (Zpos q = Z.abs m) as Hq by (subst q; rewrite Z2Pos.id; lia).
  assert (sign m = (if (m <? 0)%Z then "-" else EmptyString)) as ->
    by (destruct m; [congruence | reflexivity | reflexivity]).
  rewrite <- (number_value_decimal m p Hc), <- Hq.
  pose proof (digits_all q) as Hall. pose proof (digits_length q) as Hlen.
  pose proof (uint_value_digits q) as Hval.
  destruct (digits_head q) as (c & r & Ed & _ & Hc0).
  set (d := digits q) in *. set (k := String.length d) in *. rewrite append_assoc.
  destruct ((0 <? Z.of_nat k - Z.pos p)%Z && (Z.of_nat k - Z.pos p <=? 21)%Z) eqn:E1;
    [|destruct ((-6 <? Z.of_nat k - Z.pos p)%Z && (Z.of_nat k - Z.pos p <=? 0)%Z) eqn:E2].
  - apply andb_prop in E1 as [E1 _]. apply Z.ltb_lt in E1.
    set (n := Z.to_nat (Z.of_nat k - Z.pos p)).
    assert (0 < n < k) as Hn by (subst n; lia).
    assert (drop n d <> EmptyString) as Hdrop.
    { intros E. apply (f_equal String.length) in E.
      rewrite length_drop in E. simpl in E. fold k in E. lia. }
    pose proof (parse_number_parts (m <? 0)%Z (take n d) (drop n d) rest rest 0) as H.
    assert (frac_text (drop n d) = String "." (drop n d)) as Ef
      by (destruct (drop n d); [congruence | reflexivity]).
    rewrite Ef in H. rewrite append_assoc. cbn [append] in H |- *.
    rewrite H; clear H.
    + rewrite take_drop, Hval. do 3 f_equal.
      rewrite length_drop. fold k. subst n. lia.
    + now apply all_digits_take.
    + rewrite Ed. destruct n as [|n']; [lia | discriminate].
    + rewrite Ed. destruct n as [|n']; [lia|]. simpl.
      destruct (take n' r); [reflexivity | exact Hc0].
    + now apply all_digits_drop.
    + assumption.
    + intros E. congruence.
    + now apply parse_exp_none.
  - apply andb_prop in E2 as [_ E2]. apply Z.leb_le in E2.
    set (n := Z.to_nat (- (Z.of_nat k - Z.pos p))).
    pose proof (parse_number_parts (m <? 0)%Z "0" (zeros n ++ d) rest rest 0) as H.
    assert (frac_text (zeros n ++ d) = String "." (zeros n ++ d)) as Ef.
    { destruct (zeros n ++ d) eqn:E; [|reflexivity].
      apply (f_equal String.length) in E. rewrite length_append in E.
      simpl in E. fold k in E. lia. }
    rewrite Ef in H. cbn [append] in H |- *.
    rewrite H; clear H.
    + change ("0" ++ zeros n ++ d) with (String "0" (zeros n ++ d)).
      rewrite uint_value_zero, uint_value_zeros, Hval. do 3 f_equal.
      rewrite length_append, length_zeros. fold k. subst n. lia.
    + reflexivity.
    + discriminate.
    + reflexivity.
    + rewrite all_digits_app, all_digits_zeros. exact Hall.
    + assumption.
    + intros E. rewrite E in Ef. discriminate Ef.
    + now apply parse_exp_none.
  - subst k d. rewrite parse_number_scientific by assumption.
    do 3 f_equal. lia.
Qed.

Lemma number_head (z : Z) :
  exists c r, number z = String c r /\ (is_digit c = true \/ c = "-"%char).
Proof.
  destruct z as [|p|p]; cbn [number sign].
  - eexists _, _; split; [reflexivity | left; reflexivity].
  - destruct (Z.pos p <? 10 ^ 21)%Z.
    + destruct (digits_head p) as (c & r & -> & Hc & _).
      eexists _, _; split; [reflexivity | left; exact Hc].
    + cbn [append]. destruct (strip10 _ _ _ _) as [s t].
      destruct (digits_head (Z.to_pos s)) as (c & r & -> & Hc & _).
      destruct r; eexists _, _; (split; [reflexivity | left; exact Hc]).
  - destruct (Z.pos p <? 10 ^ 21)%Z;
      eexists _, _; (split; [reflexivity | right; reflexivity]).
Qed.

Lemma decimal_head (m : Z) (p : positive) :
  exists c r, decimal m p = String c r /\ (is_digit c = true \/ c = "-"%char).
Proof.
  unfold decimal. set (q := Z.to_pos (Z.abs m)). set (d := digits q).
  set (n := (Z.of_nat (String.length d) - Z.pos p)%Z).
  assert (exists c r,
            (if (0 <? n)%Z && (n <=? 21)%Z
             then take (Z.to_nat n) d ++ String "." (drop (Z.to_nat n) d)
             else if (-6 <? n)%Z && (n <=? 0)%Z
                  then String "0" (String "." (zeros (Z.to_nat (- n)) ++ d))
                  else scientific d (n - 1)) = String c r
            /\ is_digit c = true) as (c & r & -> & Hc).
  { destruct (digits_head q) as (c & r & E & Hc & _). fold d in E.
    destruct ((0 <? n)%Z && (n <=? 21)%Z) eqn:E1;
      [|destruct ((-6 <? n)%Z && (n <=? 0)%Z)].
    - apply andb_prop in E1 as [E1 _]. apply Z.ltb_lt in E1.
      destruct (Z.to_nat n) as [|n'] eqn:En; [lia|]. rewrite E. simpl. eauto.
    - eexists _, _; split; reflexivity.
    - rewrite E. destruct r; simpl; eauto. }
  destruct m; cbn [sign append]; eauto.
Qed.

Lemma ends_value_number (rest : string) : ends_value rest = true -> ends_number rest = true.
Proof.
  destruct rest as [|c rest]; [reflexivity|]. simpl.
  each_char c; intros H; try discriminate H; reflexivity.
Qed.

Lemma stringify_head (v : jsval) :
  exists c r, stringify v = String c r /\ opens_value c = true.
Proof.
  assert (forall c, is_digit c = true \/ c = "-"%char -> opens_value c = true) as Hopen.
  { intros c [Hc| ->]; [|reflexivity]. each_char c; try discriminate Hc; reflexivity. }
  destruct v as [|[]|z|s|fr l|fr l|m p]; cbn [stringify];
    try (eexists _, _; split; reflexivity).
  - destruct (number_head z) as (c & r & -> & Hc). eauto.
  - destruct (decimal_head m p) as (c & r & -> & Hc). eauto.
Qed.

Lemma skip_ws_opens (c : ascii) (r : string) :
  opens_value c = true -> skip_ws (String c r) = String c r.
Proof.
  unfold opens_value. intros H. simpl.
  destruct (is_ws c); [discriminate H | reflexivity].
Qed.

Lemma parse_value_number (f : nat) (c : ascii) (r : string) :
  is_digit c = true \/ c = "-"%char ->
  parse_value (S f) (String c r) = parse_number (String c r).
Proof.
  intros [H| ->]; [|reflexivity].
  each_char c; try discriminate H; reflexivity.
Qed.

Lemma parse_value_open_array (f : nat) (c : ascii) (r : string) :
  opens_value c = true ->
  parse_value (S f) (String "[" (String c r)) = parse_elements f [] (String c r).
Proof.
  intros H. change (parse_value (S f) (String "[" (String c r)))
    with (match skip_ws (String c r) with
          | String c' r' =>
              if Ascii.eqb c' "]" then Some (VArr false [], r')
              else parse_elements f [] (String c r)
          | EmptyString => None
          end).
  rewrite skip_ws_opens by assumption.
  unfold opens_value in H.
  destruct (Ascii.eqb c "]"); [|reflexivity].
  rewrite andb_false_r in H. discriminate H.
Qed.

Lemma parse_value_open_object (f : nat) (c : ascii) (r : string) :
  opens_value c = true ->
  parse_value (S f) (String "{" (String c r)) = parse_members f [] (String c r).
Proof.
  intros H. change (parse_value (S f) (String "{" (String c r)))
    with (match skip_ws (String c r) with
          | String c' r' =>
              if Ascii.eqb c' "}" then Some (VObj false [], r')
              else parse_members f [] (String c r)
          | EmptyString => None
          end).
  rewrite skip_ws_opens by assumption.
  unfold opens_value in H.
  destruct (Ascii.eqb c "}"); [|reflexivity].
  rewrite andb_false_r in H. discriminate H.
Qed.

Lemma obj_set_fresh (acc : list (string * jsval)) (k : string) (v : jsval) :
  has_key k acc = false -> obj_set acc k v = (acc ++ [(k, v)])%list.
Proof.
  induction acc as [|[k' v'] acc IH]; simpl; [reflexivity|].
  intros H. apply orb_false_elim in H as [Hk Hr].
  rewrite Hk, IH by assumption. reflexivity.
Qed.

Lemma has_key_app (k : string) (a b : list (string * jsval)) :
  has_key k (a ++ b) = has_key k a || has_key k b.
Proof.
  induction a as [|[k' v'] a IH]; simpl; [reflexivity|].
  rewrite IH, orb_assoc. reflexivity.
Qed.

Lemma parse_elements_join (l : list jsval) :
  Forall reads_back l -> forallb well_formed l = true -> l <> [] ->
  forall fuel acc rest,
    fold_right (fun x n => S (size x + n)) 0 l <= fuel ->
    parse_elements fuel acc (join (map stringify l) ++ String "]" rest)
    = Some (VArr false (acc ++ map thaw l), rest).
Proof.
  induction 1 as [|x l Hx Hl IH]; [congruence|].
  intros Hwf _ fuel acc rest Hfuel.
  simpl in Hwf. apply andb_prop in Hwf as [Hwx Hwl].
  simpl in Hfuel. destruct fuel as [|fuel]; [lia|].
  destruct l as [|y l].
  - simpl join.
    change (parse_elements (S fuel) acc (stringify x ++ String "]" rest))
      with (match parse_value fuel (stringify x ++ String "]" rest) with
            | Some (v, r) =>
                match skip_ws r with
                | String c r' =>
                    if Ascii.eqb c "," then parse_elements fuel (acc ++ [v]) r'
                    else if Ascii.eqb c "]" then Some (VArr false (acc ++ [v]), r')
                    else None
                | EmptyString => None
                end
            | None => None
            end).
    rewrite (Hx Hwx) by (simpl; try reflexivity; lia). reflexivity.
  - change (join (map stringify (x :: y :: l)))
      with (stringify x ++ "," ++ join (map stringify (y :: l))).
    rewrite append_assoc.
    change (("," ++ join (map stringify (y :: l))) ++ String "]" rest)
      with (String "," (join (map stringify (y :: l)) ++ String "]" rest)).
    change (parse_elements (S fuel) acc
              (stringify x ++ String "," (join (map stringify (y :: l)) ++ String "]" rest)))
      with (match parse_value fuel
                    (stringify x ++ String "," (join (map stringify (y :: l)) ++ String "]" rest)) with
            | Some (v, r) =>
                match skip_ws r with
                | String c r' =>
                    if Ascii.eqb c "," then parse_elements fuel (acc ++ [v]) r'
                    else if Ascii.eqb c "]" then Some (VArr false (acc ++ [v]), r')
                    else None
                | EmptyString => None
                end
            | None => None
            end).
    rewrite (Hx Hwx) by (simpl; try reflexivity; lia).
    cbn [skip_ws]. change (is_ws ",") with false.
    change (Ascii.eqb "," ",") with true. cbv iota.
    rewrite IH by (try assumption; try discriminate; simpl in *; lia).
    rewrite <- app_assoc. reflexivity.
Qed.

Lemma member_text (k : string) (v : jsval) (tail : string) :
  member (k, v) ++ tail
  = String dquote (escape k ++ String dquote (String ":" (stringify v ++ tail))).
Proof.
  unfold member, quote, str1. simpl.
  rewrite !append_assoc. simpl. reflexivity.
Qed.

Lemma parse_members_step (f : nat) (acc : list (string * jsval)) (k tail : string) :
  parse_members (S f) acc (String dquote (escape k ++ String dquote (String ":" tail)))
  = match parse_value f tail with
    | Some (v, r3) =>
        match skip_ws r3 with
        | String c r4 =>
            if Ascii.eqb c "," then parse_members f (obj_set acc k v) r4
            else if Ascii.eqb c "}" then Some (VObj false (obj_set acc k v), r4)
            else None
        | EmptyString => None
        end
    | None => None
    end.
Proof.
  remember (escape k ++ String dquote (String ":" tail)) as txt eqn:E.
  change (parse_members (S f) acc (String dquote txt))
    with (match parse_chars txt with
          | Some (k, r1) =>
              match skip_ws r1 with
              | String c r2 =>
                  if Ascii.eqb c ":" then
                    match parse_value f r2 with
                    | Some (v, r3) =>
                        match skip_ws r3 with
                        | String c' r4 =>
                            if Ascii.eqb c' "," then parse_members f (obj_set acc k v) r4
                            else if Ascii.eqb c' "}" then
                              Some (VObj false (obj_set acc k v), r4)
                            else None
                        | EmptyString => None
                        end
                    | None => None
                    end
                  else None
              | EmptyString => None
              end
          | None => None
          end).
  subst txt. rewrite parse_chars_escape. reflexivity.
Qed.

Lemma fresh_keys_step (k : string) (v v' : jsval) (l acc : list (string * jsval)) :
  distinct_keys ((k, v) :: l) = true ->
  fresh_keys ((k, v) :: l) acc ->
  has_key k acc = false /\ fresh_keys l (acc ++ [(k, v')]).
Proof.
  intros Hd Hf. simpl in Hd. apply andb_prop in Hd as [Hk _].
  apply negb_true_iff in Hk. split.
  - apply Hf. simpl. now rewrite String.eqb_refl.
  - intros k' Hk'. rewrite has_key_app. simpl.
    rewrite (Hf k') by (simpl; rewrite Hk'; apply orb_true_r).
    destruct (String.eqb_spec k k') as [->|]; [congruence | reflexivity].
Qed.

Lemma parse_members_join (l : list (string * jsval)) :
  Forall (fun kv => reads_back (snd kv)) l ->
  forallb (fun kv => well_formed (snd kv)) l = true ->
  distinct_keys l = true -> l <> [] ->
  forall fuel acc rest,
    fresh_keys l acc ->
    fold_right (fun kv n => S (size (snd kv) + n)) 0 l <= fuel ->
    parse_members fuel acc (join (map member l) ++ String "}" rest)
    = Some (VObj false (acc ++ map thaw_prop l), rest).
Proof.
  induction 1 as [|[k v] l Hx Hl IH]; [congruence|].
  intros Hwf Hd _ fuel acc rest Hfresh Hfuel.
  simpl in Hwf. apply andb_prop in Hwf as [Hwx Hwl].
  destruct (fresh_keys_step k v (thaw v) l acc Hd Hfresh) as [Hk Hfresh'].
  simpl in Hd. apply andb_prop in Hd as [_ Hd].
  simpl in Hfuel, Hx. destruct fuel as [|fuel]; [lia|].
  destruct l as [|y l].
  - simpl join. rewrite member_text, parse_members_step.
    rewrite (Hx Hwx) by (simpl; try reflexivity; lia).
    cbn [skip_ws]. change (is_ws "}") with false.
    change (Ascii.eqb "}" ",") with false. change (Ascii.eqb "}" "}") with true.
    cbv iota. rewrite obj_set_fresh by assumption. reflexivity.
  - change (join (map member ((k, v) :: y :: l)))
      with (member (k, v) ++ "," ++ join (map member (y :: l))).
    rewrite append_assoc, member_text, parse_members_step.
    change (("," ++ join (map member (y :: l))) ++ String "}" rest)
      with (String "," (join (map member (y :: l)) ++ String "}" rest)).
    rewrite (Hx Hwx) by (simpl; try reflexivity; lia).
    cbn [skip_ws]. change (is_ws ",") with false.
    change (Ascii.eqb "," ",") with true. cbv iota.
    rewrite obj_set_fresh by assumption.
    rewrite IH by (try assumption; try discriminate; simpl in *; lia).
    rewrite <- app_assoc. reflexivity.
Qed.

Lemma join_head (A : Type) (f : A -> string) (x : A) (l : list A) :
  (exists c r, f x = String c r /\ opens_value c = true) ->
  exists c r, join (map f (x :: l)) = String c r /\ opens_value c = true.
Proof.
  intros (c & r & Hs & Hc). destruct l as [|y l]; simpl.
  - eauto.
  - rewrite Hs. simpl. eauto.
Qed.

Theorem parse_value_stringify (v : jsval) : reads_back v.
Proof.
  induction v as [|b|z|s|fr l IH|fr l IH|m p] using jsval_ind;
    intros Hwf fuel rest Hfuel Hrest;
    (destruct fuel as [|fuel]; [simpl in Hfuel; lia|]).
  - reflexivity.
  - destruct b; reflexivity.
  - cbn [stringify]. destruct (number_head z) as (c & r & Hs & Hc).
    pose proof (parse_number_number z rest (ends_value_number _ Hrest)) as Hn.
    rewrite Hs in Hn |- *. cbn [append] in Hn |- *.
    rewrite parse_value_number by assumption. exact Hn.
  - simpl stringify. unfold quote, str1. simpl append.
    rewrite append_assoc. simpl append.
    change (parse_value (S fuel) (String dquote (escape s ++ String dquote rest)))
      with (match parse_chars (escape s ++ String dquote rest) with
            | Some (str, rest) => Some (VStr str, rest)
            | None => None
            end).
    rewrite parse_chars_escape. reflexivity.
  - destruct l as [|x l]; [reflexivity|].
    simpl in Hwf.
    change (stringify (VArr fr (x :: l)) ++ rest)
      with (String "[" ((join (map stringify (x :: l)) ++ "]") ++ rest)).
    rewrite append_assoc.
    destruct (join_head _ stringify x l (stringify_head x)) as (c & r & Hs & Hc).
    pose proof (parse_elements_join (x :: l) IH Hwf ltac:(discriminate) fuel [] rest) as H.
    rewrite Hs in H |- *. simpl append in H |- *.
    rewrite parse_value_open_array by assumption.
    apply H. simpl in Hfuel |- *. lia.
  - destruct l as [|[k x] l]; [reflexivity|].
    simpl in Hwf. apply andb_prop in Hwf as [Hd Hwf].
    change (stringify (VObj fr ((k, x) :: l)) ++ rest)
      with (String "{" ((join (map member ((k, x) :: l)) ++ "}") ++ rest)).
    rewrite append_assoc.
    assert (exists c r, join (map member ((k, x) :: l)) = String c r /\ opens_value c = true)
      as (c & r & Hs & Hc).
    { apply join_head. unfold member, quote. simpl. eexists _, _. split; reflexivity. }
    pose proof (parse_members_join ((k, x) :: l) IH Hwf Hd ltac:(discriminate)
                  fuel [] rest) as H.
    rewrite Hs in H |- *. simpl append in H |- *.
    rewrite parse_value_open_object by assumption.
    apply H; [intros k' _; reflexivity|]. simpl in Hfuel |- *. lia.
  - cbn [stringify]. destruct (decimal_head m p) as (c & r & Hs & Hc).
    pose proof (parse_number_decimal m p rest Hwf (ends_value_number _ Hrest)) as Hn.
    rewrite Hs in Hn |- *. cbn [append] in Hn |- *.
    rewrite parse_value_number by assumption. exact Hn.
Qed.

Lemma size_join (A : Type) (f : A -> string) (g : A -> nat) (l : list A) :
  Forall (fun x => g x <= String.length (f x)) l ->
  fold_right (fun x n => S (g x + n)) 0 l <= S (String.length (join (map f l))).
Proof.
  induction 1 as [|x l Hx Hl IH]; [simpl; lia|].
  destruct l as [|y l].
  - simpl. lia.
  - change (join (map f (x :: y :: l))) with (f x ++ "," ++ join (map f (y :: l))).
    rewrite !length_append.
    change (fold_right (fun x n => S (g x + n)) 0 (x :: y :: l))
      with (S (g x + fold_right (fun x n => S (g x + n)) 0 (y :: l))).
    change (String.length ",") with 1. lia.
Qed.

Lemma size_stringify (v : jsval) : size v <= String.length (stringify v).
Proof.
  induction v as [|b|z|s|fr l IH|fr l IH|m p] using jsval_ind;
    [| | | | | |destruct (decimal_head m p) as (c & r & Hs & _);
               cbn [stringify size]; rewrite Hs; simpl; lia].
  - simpl. lia.
  - destruct b; simpl; lia.
  - destruct (number_head z) as (c & r & Hs & _). cbn [stringify size].
    rewrite Hs. simpl. lia.
  - simpl. lia.
  - simpl. rewrite length_append. simpl.
    pose proof (size_join _ stringify size l IH). lia.
  - assert (Forall (fun kv => size (snd kv) <= String.length (member kv)) l) as H.
    { eapply Forall_impl; [|exact IH]. intros [k x] Hx. unfold member.
      rewrite !length_append. simpl in *. lia. }
    pose proof (size_join _ member (fun kv => size (snd kv)) l H) as Hj.
    cbv beta in Hj.
    change (stringify (VObj fr l)) with (String "{" (join (map member l) ++ "}")).
    change (size (VObj fr l))
      with (S (fold_right (fun kv n => S (size (snd kv) + n)) 0 l)).
    cbn [String.length]. rewrite length_append.
    change (String.length "}") with 1. lia.
Qed.

(** [JSON.parse(JSON.stringify(v))] builds [v] afresh. *)
Theorem parse_stringify (v : jsval) :
  well_formed v = true -> parse (stringify v) = Some (thaw v).
Proof.
  intros Hwf. unfold parse.
  pose proof (parse_value_stringify v Hwf (S (String.length (stringify v))) EmptyString) as H.
  rewrite append_nil_r in H. rewrite H; [reflexivity | | reflexivity].
  pose proof (size_stringify v). lia.
Qed.

Lemma thaw_plain (v : jsval) : plain v = true -> thaw v = v.
Proof.
  induction v as [|b|z|s|fr l IH|fr l IH|m p] using jsval_ind; try reflexivity.
  - simpl. intros H. apply andb_prop in H as [Hfr Hl].
    apply negb_true_iff in Hfr. subst fr. f_equal.
    induction IH as [|x l Hx _ IHl]; [reflexivity|].
    simpl in Hl. apply andb_prop in Hl as [Hpx Hl].
    simpl. now rewrite Hx, IHl.
  - simpl. intros H. apply andb_prop in H as [Hfr Hl].
    apply negb_true_iff in Hfr. subst fr. f_equal.
    induction IH as [|[k x] l Hx _ IHl]; [reflexivity|].
    simpl in Hl. apply andb_prop in Hl as [Hpx Hl].
    simpl in *. now rewrite Hx, IHl.
Qed.

Lemma stringify_thaw (v : jsval) : stringify (thaw v) = stringify v.
Proof.
  induction v as [|b|z|s|fr l IH|fr l IH|m p] using jsval_ind; try reflexivity.
  - simpl. do 3 f_equal. rewrite map_map.
    apply map_ext_in. intros x Hin.
    rewrite Forall_forall in IH. exact (IH x Hin).
  - simpl. do 3 f_equal. rewrite map_map.
    apply map_ext_in. intros [k x] Hin.
    rewrite Forall_forall in IH. simpl. do 3 f_equal. exact (IH (k, x) Hin).
Qed.

End JSONFacts.

(** ** [Buffer.from(s, 'base64')] reads back [buff.toString('base64')] *)

Module Base64Facts.
Import Base64.

Local Ltac Zify.zify_post_hook ::= Z.to_euclidean_division_equations.

Lemma byte_of_to_N (x : byte) : byte_of_N (Byte.to_N x) = x.
Proof.
  unfold byte_of_N. pose proof (Byte.to_N_bounded x) as Hb.
  rewrite N.mod_small by lia. now rewrite Byte.of_to_N.
Qed.

Lemma char_ok_all : forallb char_ok (map N.of_nat (seq 0 64)) = true.
Proof. vm_compute. reflexivity. Qed.

Lemma sextets_char (i : N) (r : string) :
  (i < 64)%N -> sextets (String (char i) r) = i :: sextets r.
Proof.
  intros Hi.
  assert (char_ok i = true) as H.
  { pose proof char_ok_all as Hall. rewrite forallb_forall in Hall.
    apply Hall. apply in_map_iff. exists (N.to_nat i). split; [lia|].
    apply in_seq. lia. }
  unfold char_ok in H. apply andb_prop in H as [Hpad Hidx].
  apply negb_true_iff in Hpad. simpl. rewrite Hpad.
  destruct (index (char i)) as [j|]; [|discriminate Hidx].
  apply N.eqb_eq in Hidx. now subst j.
Qed.

Lemma byte_of_N_eq (n : N) (x : byte) : n = Byte.to_N x -> byte_of_N n = x.
Proof. intros ->. apply byte_of_to_N. Qed.

Theorem base64_decode_encode (b : Buffer) : decode (encode b) = b.
Proof.
  unfold decode. induction b as [|x|x y|x y z r IH] using by_triples.
  - reflexivity.
  - pose proof (Byte.to_N_bounded x).
    cbn [encode]. rewrite !sextets_char by lia.
    cbn [sextets pack]. simpl Ascii.eqb. cbv iota.
    f_equal. apply byte_of_N_eq. lia.
  - pose proof (Byte.to_N_bounded x). pose proof (Byte.to_N_bounded y).
    cbn [encode]. rewrite !sextets_char by lia.
    cbn [sextets pack]. simpl Ascii.eqb. cbv iota.
    repeat (f_equal; try (apply byte_of_N_eq; lia)).
  - pose proof (Byte.to_N_bounded x). pose proof (Byte.to_N_bounded y).
    pose proof (Byte.to_N_bounded z).
    cbn [encode]. rewrite !sextets_char by lia.
    cbn [pack]. rewrite IH.
    repeat (f_equal; try (apply byte_of_N_eq; lia)).
Qed.

End Base64Facts.

(** ** [Buffer.from(s, 'hex')] reads back [buff.toString('hex')] *)

Module HexFacts.
Import Hex.

Local Ltac Zify.zify_post_hook ::= Z.to_euclidean_division_equations.

Lemma digit_ok_all : forallb digit_ok (map N.of_nat (seq 0 16)) = true.
Proof. vm_compute. reflexivity. Qed.

Lemma value_digit (n : N) : (n < 16)%N -> value (digit n) = Some n.
Proof.
  intros Hn.
  assert (digit_ok n = true) as H.
  { pose proof digit_ok_all as Hall. rewrite forallb_forall in Hall.
    apply Hall. apply in_map_iff. exists (N.to_nat n). split; [lia|].
    apply in_seq. lia. }
  unfold digit_ok in H. destruct (value (digit n)) as [m|]; [|discriminate H].
  apply N.eqb_eq in H. now subst m.
Qed.

Theorem hex_decode_encode (b : Buffer) : decode (encode b) = b.
Proof.
  induction b as [|x b IH]; [reflexivity|].
  pose proof (Byte.to_N_bounded x) as Hx.
  cbn [encode decode]. rewrite !value_digit by lia. rewrite IH.
  f_equal. apply Base64Facts.byte_of_N_eq. lia.
Qed.

Lemma digit_plain_all : forallb digit_plain (map N.of_nat (seq 0 16)) = true.
Proof. vm_compute. reflexivity. Qed.

Lemma digit_not_colon (n : N) : (n < 16)%N -> Ascii.eqb (digit n) ":" = false.
Proof.
  intros Hn. pose proof digit_plain_all as Hall. rewrite forallb_forall in Hall.
  apply negb_true_iff. apply (Hall n). apply in_map_iff.
  exists (N.to_nat n). split; [lia|]. apply in_seq. lia.
Qed.

Lemma digit_injective (i j : N) :
  (i < 16)%N -> (j < 16)%N -> digit i = digit j -> i = j.
Proof.
  intros Hi Hj E. pose proof (value_digit i Hi) as Vi.
  rewrite E, (value_digit j Hj) in Vi. now injection Vi.
Qed.

Lemma hex_encode_injective (a b : Buffer) : encode a = encode b -> a = b.
Proof.
  intros H. rewrite <- (hex_decode_encode a), <- (hex_decode_encode b). now rewrite H.
Qed.

End HexFacts.

(** ** The linkage message *)

Example purpose_value : purpose_of PURPOSE = 510742%N.
Proof. vm_compute. reflexivity. Qed.

(** C1, as stated, at the empty payload behind the one-byte prior hash
    [00]: the message is not the base64 text of the payload digest
    followed by the prior hash. *)
Lemma message_order_counterexample :
  message [] (Some [x00]) <> BufferToB64 (sha256 [] ++ [x00])%list.
Proof. vm_compute. discriminate. Qed.

(** C1, amended: with a prior hash [h] the linkage message of a payload
    [p] is the base64 text of [h] followed by the SHA-256 digest of [p]
    (prior hash first), and it reads back to exactly those bytes; with
    no prior hash it is the base64 text of [p] itself. *)
Theorem message_spec (p h : Buffer) :
  message p (Some h) = BufferToB64 (h ++ sha256 p)%list
  /\ B64ToBuffer (message p (Some h)) = (h ++ sha256 p)%list
  /\ message p None = BufferToB64 p
  /\ B64ToBuffer (message p None) = p.
Proof.
  assert (message p (Some h) = BufferToB64 (h ++ sha256 p)%list) as E.
  { unfold message, Buffer_concat. simpl. now rewrite app_nil_r. }
  unfold B64ToBuffer. rewrite E. unfold message, BufferToB64.
  rewrite !Base64Facts.base64_decode_encode. repeat split; reflexivity.
Qed.

(** ** Snapshots *)

Lemma toImmutable_snapshot (v : jsval) :
  well_formed v = true -> toImmutable v = Resolved (Object_freeze (thaw v)).
Proof.
  intros Hwf. unfold toImmutable, JSON_parse.
  rewrite JSONFacts.parse_stringify by assumption. reflexivity.
Qed.

(** The snapshot is the fresh parse of the serialization, frozen at the
    top: no assignment to one of its own properties or elements goes
    through. *)
Lemma toImmutable_top_frozen (v : jsval) :
  well_formed v = true ->
  toImmutable v = Resolved (Object_freeze (thaw v))
  /\ forall k x, assign (Object_freeze (thaw v)) k x = None.
Proof.
  intros Hwf. split; [now apply toImmutable_snapshot|].
  intros k x. destruct v; destruct k; reflexivity.
Qed.

(** C7, at the value [{a: {b: 1}}]: the snapshot is frozen at the top
    only, and the assignment [snapshot.a.b = 2] goes through. *)
Theorem toImmutable_nested_assignment :
  let v := VObj false [("a", VObj false [("b", VNum 1)])] in
  toImmutable v = Resolved (VObj true [("a", VObj false [("b", VNum 1)])])
  /\ assign_path (VObj true [("a", VObj false [("b", VNum 1)])])
       [Name "a"; Name "b"] (VNum 2)
     = Some (VObj true [("a", VObj false [("b", VNum 2)])])
  /\ assign_path (VObj true [("a", VObj false [("b", VNum 1)])])
       [Name "a"] (VNum 2)
     = None.
Proof. vm_compute. repeat split; reflexivity. Qed.

(** ** Construction *)

Section Construction.
Context {C : Collaborators}.

(** C10: a type argument that is missing, [null] or [0] is stored as
    [-1]; no argument makes the constructor store [0], nor does
    [fromMetadataHDNode], which passes its type through. *)
Theorem constructor_typeId (ecPair : ECPair) (encKeyBuffer : option Buffer) :
  _typeId (constructor ecPair encKeyBuffer Undefined) = (-1)%Z
  /\ _typeId (constructor ecPair encKeyBuffer Null) = (-1)%Z
  /\ _typeId (constructor ecPair encKeyBuffer (Num 0)) = (-1)%Z
  /\ (forall typeId, _typeId (constructor ecPair encKeyBuffer typeId) <> 0%Z)
  /\ (forall node, _typeId (fromMetadataHDNode node 0) = (-1)%Z)
  /\ (forall node typeId, _typeId (fromMetadataHDNode node typeId) <> 0%Z).
Proof.
  assert (forall typeId, _typeId (constructor ecPair encKeyBuffer typeId) <> 0%Z) as H.
  { intros [| |z]; simpl; try discriminate.
    destruct (Z.eqb_spec z 0); [discriminate | assumption]. }
  repeat split; try reflexivity; try exact H.
  intros node z. unfold fromMetadataHDNode. simpl.
  destruct (Z.eqb_spec z 0); [discriminate | assumption].
Qed.

End Construction.

(** ** Operations of a record *)

Arguments sha256 : simpl never.
Arguments magicHash : simpl never.
Arguments message : simpl never.
Arguments magic : simpl never.
Arguments BufferToB64 : simpl never.
Arguments B64ToBuffer : simpl never.
Arguments JSON.stringify : simpl never.
Arguments JSON.parse : simpl never.

Section Operations.
Context {C : Collaborators}.

Lemma create_idle (this : Metadata) (v : jsval) :
  well_formed v = true ->
  create (idle this) v
  = let payload := Object_freeze (thaw v) in
    {| record := this; queue := [];
       inflight := Some (0, OCreate payload (encPayloadBuffer this payload));
       events := [Signed (message (encPayloadBuffer this payload) (_magicHash this));
                  Sent PUT (_address this) (Some (create_body this payload))];
       settled := []; calls := 1 |}.
Proof.
  intros Hwf. unfold create. rewrite toImmutable_snapshot by assumption. reflexivity.
Qed.

Lemma set_magicHash_value (this : Metadata) (h : Buffer) :
  _value (set_magicHash this h) = _value this.
Proof. reflexivity. Qed.

(** C8: on a record with no chain hash, a GET answered 404 makes
    [fetch] resolve with [null]; nothing is rejected, the record is as
    it was, and [existsOnServer] is still false. *)
Theorem fetch_not_found (this : Metadata) (body : string) :
  _magicHash this = None ->
  let w := run (idle this) [Fetch; Deliver (Response 404 body)] in
  settled w = [(0, Resolved VNull)]
  /\ record w = this
  /\ _magicHash (record w) = None
  /\ existsOnServer (record w) = false
  /\ inflight w = None /\ queue w = [].
Proof.
  intros Hnone. cbn. unfold existsOnServer. rewrite Hnone. repeat split; reflexivity.
Qed.



Lemma same_json_iff (v : jsval) (value : option jsval) :
  same_json v value = true <-> stringify_value value = Some (JSON.stringify v).
Proof.
  unfold same_json. destruct (stringify_value value) as [s|].
  - rewrite String.eqb_eq. split; [intros ->; reflexivity | intros [= ->]; reflexivity].
  - split; discriminate.
Qed.


(** *** Fetching *)

Lemma verifyResponse_nonnull (address : string) (res : jsval) :
  is_null res = false ->
  verifyResponse address res
  = (sB <- buffer_field B64ToBuffer "signature" res ;;
     pB <- buffer_field B64ToBuffer "payload" res ;;
     mB <- buffer_field Hex.decode "prev_magic_hash" res ;;
     match pB with
     | None => Rejected TypeError
     | Some pB =>
         verified <- verify address sB (message pB mB) ;;
         if negb verified
         then Rejected (JsError "Error" "METADATA_SIGNATURE_VERIFICATION_ERROR")
         else Resolved (Some (res, magic pB mB))
     end).
Proof. destruct res; [discriminate | reflexivity..]. Qed.

(** What an accepted response went through. *)
Lemma verifyResponse_accepted (address : string) (res res' : jsval) (h' : Buffer) :
  verifyResponse address res = Resolved (Some (res', h')) ->
  res' = res
  /\ exists sB pB mB,
       buffer_field B64ToBuffer "signature" res = Resolved sB
       /\ buffer_field B64ToBuffer "payload" res = Resolved (Some pB)
       /\ buffer_field Hex.decode "prev_magic_hash" res = Resolved mB
       /\ Bitcoin_message_verify address sB (message pB mB) = Some true
       /\ h' = magic pB mB.
Proof.
  destruct (is_null res) eqn:Hnull; [destruct res; discriminate|].
  rewrite verifyResponse_nonnull by assumption.
  destruct (buffer_field B64ToBuffer "signature" res) as [sB|]; [|discriminate].
  destruct (buffer_field B64ToBuffer "payload" res) as [pB|]; [|discriminate].
  destruct (buffer_field Hex.decode "prev_magic_hash" res) as [mB|];
    [|discriminate].
  cbn [bind]. destruct pB as [pB|]; [|discriminate].
  unfold verify.
  destruct (Bitcoin_message_verify address sB (message pB mB)) as [[|]|] eqn:Hv;
    cbn [bind negb]; try discriminate.
  intros [= <- <-]. split; [reflexivity|].
  exists sB, pB, mB. repeat split; try reflexivity. exact Hv.
Qed.

(** A response whose signature the primitive does not accept is
    refused. *)
Lemma verifyResponse_refused (address : string) (res : jsval)
  (sB : option Buffer) (pB : Buffer) (mB : option Buffer) :
  res <> VNull ->
  buffer_field B64ToBuffer "signature" res = Resolved sB ->
  buffer_field B64ToBuffer "payload" res = Resolved (Some pB) ->
  buffer_field Hex.decode "prev_magic_hash" res = Resolved mB ->
  Bitcoin_message_verify address sB (message pB mB) <> Some true ->
  exists e, verifyResponse address res = Rejected e.
Proof.
  intros Hnull Hs Hp Hm Hv.
  rewrite verifyResponse_nonnull by (destruct res; [congruence | reflexivity..]).
  rewrite Hs, Hp, Hm. cbn [bind]. unfold verify.
  destruct (Bitcoin_message_verify address sB (message pB mB)) as [[|]|];
    [congruence| |]; cbn [bind negb]; eauto.
Qed.

Lemma fetch_then_cases (this : Metadata) (get : promise jsval) :
  fetch_then this get
  = match get with
    | Rejected _ => (this, Rejected FETCH_FAILED)
    | Resolved res =>
        match verifyResponse (_address this) res with
        | Rejected _ => (this, Rejected FETCH_FAILED)
        | Resolved None => (this, Resolved VNull)
        | Resolved (Some (res1, h')) =>
            match extractResponse (_encKeyBuffer this) res1 with
            | Rejected _ => (set_magicHash this h', Rejected FETCH_FAILED)
            | Resolved value =>
                (fst (saveValue (set_magicHash this h') value),
                 catch (snd (saveValue (set_magicHash this h') value))
                       (fun _ => Rejected FETCH_FAILED))
            end
        end
    end.
Proof.
  unfold fetch_then. destruct get as [res|e]; [|reflexivity].
  destruct (verifyResponse (_address this) res) as [[[res1 h']|]|e]; try reflexivity.
  cbn [saveMagicHash _encKeyBuffer set_magicHash].
  destruct (extractResponse (_encKeyBuffer this) res1) as [value|e]; [|reflexivity].
  destruct (saveValue _ value). reflexivity.
Qed.

Lemma saveValue_cases (this : Metadata) (value : jsval) :
  (fst (saveValue this value) = this
   \/ exists v, fst (saveValue this value) = set_value this v
                /\ exists r, snd (saveValue this value) = Resolved r).
Proof.
  unfold saveValue. destruct value; cbn; auto;
    destruct (toImmutable _); cbn; eauto.
Qed.

Lemma fetch_idle (this : Metadata) (h : http_result) :
  run (idle this) [Fetch; Deliver h]
  = {| record := fst (fetch_then this (request GET h)); queue := [];
       inflight := None; events := [Sent GET (_address this) None];
       settled := [(0, snd (fetch_then this (request GET h)))]; calls := 1 |}.
Proof.
  unfold run. cbn [fold_left step fetch next idle inflight queue record events
                   settled calls app pump].
  unfold deliver. cbn [inflight record events settled calls queue].
  destruct (fetch_then this (request GET h)). reflexivity.
Qed.

Lemma fetch_then_rejection (this : Metadata) (get : promise jsval) (e : reason) :
  snd (fetch_then this get) = Rejected e -> e = FETCH_FAILED.
Proof.
  unfold fetch_then.
  destruct (match get with Rejected e0 => _ | Resolved res => _ end) as [this' [r|e0]];
    cbn; [discriminate | now intros [= <-]].
Qed.

Lemma status_refused (m : method) (status : Z) (body : string) :
  ~ (200 <= status < 300)%Z -> status <> 404%Z ->
  checkStatus m status body = Rejected (ResponseText body).
Proof.
  intros Hs Hn. unfold checkStatus.
  replace ((200 <=? status)%Z && (status <? 300)%Z) with false.
  - destruct m; [|reflexivity]. destruct (Z.eqb_spec status 404); [contradiction | reflexivity].
  - symmetry. destruct (Z.leb_spec 200 status); destruct (Z.ltb_spec status 300);
      try reflexivity. lia.
Qed.

Lemma status_accepted (m : method) (status : Z) (body : string) :
  (200 <= status < 300)%Z -> checkStatus m status body = JSON_parse body.
Proof.
  intros Hs. unfold checkStatus.
  replace ((200 <=? status)%Z && (status <? 300)%Z) with true; [reflexivity|].
  symmetry. apply andb_true_intro. split; [apply Z.leb_le | apply Z.ltb_lt]; lia.
Qed.


Lemma create_then_rejected (this : Metadata) (payload : jsval) (enc : Buffer)
  (put : promise jsval) (e : reason) :
  snd (create_then this payload enc put) = Rejected e ->
  fst (create_then this payload enc put) = this.
Proof. destruct put; [discriminate | reflexivity]. Qed.

Lemma create_any (this : Metadata) (v : jsval) :
  create (idle this) v = idle this
  \/ exists payload,
       create (idle this) v
       = {| record := this; queue := [];
            inflight := Some (0, OCreate payload (encPayloadBuffer this payload));
            events := [Signed (message (encPayloadBuffer this payload) (_magicHash this));
                       Sent PUT (_address this) (Some (create_body this payload))];
            settled := []; calls := 1 |}.
Proof.
  unfold create. destruct (toImmutable v) as [payload|e]; [right | left; reflexivity].
  exists payload. reflexivity.
Qed.

Lemma fetch_then_rejected (this : Metadata) (get : promise jsval) (e : reason) :
  snd (fetch_then this get) = Rejected e ->
  fst (fetch_then this get) = this
  \/ exists res sB pB mB,
       get = Resolved res
       /\ buffer_field B64ToBuffer "signature" res = Resolved sB
       /\ buffer_field B64ToBuffer "payload" res = Resolved (Some pB)
       /\ buffer_field Hex.decode "prev_magic_hash" res = Resolved mB
       /\ Bitcoin_message_verify (_address this) sB (message pB mB) = Some true
       /\ fst (fetch_then this get) = set_magicHash this (magic pB mB).
Proof.
  rewrite fetch_then_cases. destruct get as [res|e0]; [|left; reflexivity].
  destruct (verifyResponse (_address this) res) as [[[res1 h']|]|e0] eqn:Hv;
    [| left; reflexivity | left; reflexivity].
  apply verifyResponse_accepted in Hv as (-> & sB & pB & mB & Hs & Hp & Hm & Hok & ->).
  intros Hrej. right. exists res, sB, pB, mB. repeat split; try assumption.
  destruct (extractResponse (_encKeyBuffer this) res) as [value|e0]; [|reflexivity].
  cbn [fst snd] in *.
  destruct (saveValue_cases (set_magicHash this (magic pB mB)) value)
    as [H|(v & _ & r & Hr)]; [exact H|].
  rewrite Hr in Hrej. discriminate Hrej.
Qed.

(** The record a single operation leaves, and its outcome. *)
Lemma operation_idle (this : Metadata) (i : input) (h : http_result) :
  let w := run (idle this) [i; Deliver h] in
  (record w = this /\ forall id e, ~ In (id, Rejected e) (settled w))
  \/ (exists payload enc,
        record w = fst (create_then this payload enc (request PUT h))
        /\ settled w = [(0, snd (create_then this payload enc (request PUT h)))])
  \/ (exists out, record w = this /\ settled w = [(0, out)])
  \/ (i = Fetch
      /\ record w = fst (fetch_then this (request GET h))
      /\ settled w = [(0, snd (fetch_then this (request GET h)))]).
Proof.
  assert (forall v,
    let w := run (idle this) [Create v; Deliver h] in
    (record w = this /\ forall id e, ~ In (id, Rejected e) (settled w))
    \/ (exists payload enc,
          record w = fst (create_then this payload enc (request PUT h))
          /\ settled w = [(0, snd (create_then this payload enc (request PUT h)))]))
    as Hcreate.
  { intros v. unfold run. cbn [fold_left step].
    destruct (create_any this v) as [->|(payload & ->)].
    - left. cbn. split; [reflexivity | intros id e []].
    - right. exists payload, (encPayloadBuffer this payload).
      unfold deliver. cbn [inflight record events settled calls queue].
      destruct (create_then _ _ _ _). split; reflexivity. }
  destruct i as [v|v| |h0].
  - destruct (Hcreate v) as [H|H]; [left | right; left]; exact H.
  - unfold run. cbn [fold_left step]. unfold update. cbn [idle record].
    destruct (same_json v (_value this)).
    + right; right; left. exists (toImmutable v). split; reflexivity.
    + destruct (Hcreate v) as [H|H]; [left | right; left]; exact H.
  - right; right; right. rewrite fetch_idle. repeat split; reflexivity.
  - left. cbn. split; [reflexivity | intros id e []].
Qed.


(** A [create] called while nothing is outstanding starts at once. *)
Lemma create_quiet (w : world) (v : jsval) :
  well_formed v = true -> inflight w = None -> queue w = [] ->
  create w v
  = let payload := Object_freeze (thaw v) in
    {| record := record w; queue := [];
       inflight := Some (calls w, OCreate payload (encPayloadBuffer (record w) payload));
       events := (events w
                  ++ [Signed (message (encPayloadBuffer (record w) payload)
                                      (_magicHash (record w)));
                      Sent PUT (_address (record w))
                           (Some (create_body (record w) payload))])%list;
       settled := settled w; calls := S (calls w) |}.
Proof.
  intros Hwf Hin Hq. unfold create. rewrite toImmutable_snapshot by assumption.
  unfold next. rewrite Hin, Hq. reflexivity.
Qed.

(** A [create] called behind an outstanding request waits. *)
Lemma create_busy (w : world) (v : jsval) (o : nat * outstanding) :
  well_formed v = true -> inflight w = Some o ->
  create w v
  = {| record := record w;
       queue := (queue w ++ [(calls w, TCreate (Object_freeze (thaw v)))])%list;
       inflight := Some o; events := events w; settled := settled w;
       calls := S (calls w) |}.
Proof.
  intros Hwf Hin. unfold create. rewrite toImmutable_snapshot by assumption.
  unfold next. rewrite Hin. reflexivity.
Qed.

Lemma writes_app (a b : list event) : writes (a ++ b) = (writes a ++ writes b)%list.
Proof.
  induction a as [|x a IH]; [reflexivity|].
  destruct x as [msg|[|] endpoint [body|]]; simpl; rewrite IH; reflexivity.
Qed.

(** The write of a [create] issued right behind an operation is made
    from the record that operation left. *)
Lemma next_create_observes (this : Metadata) (i : input) (v' : jsval) (h : http_result) :
  well_formed v' = true ->
  exists pre,
    writes (events (run (idle this) [i; Create v'; Deliver h]))
    = (pre ++ [create_body (record (run (idle this) [i; Deliver h]))
                           (Object_freeze (thaw v'))])%list.
Proof.
  intros Hwf.
  assert (forall w0 : world,
            inflight w0 = None -> queue w0 = [] ->
            step w0 (Deliver h) = w0 ->
            exists pre,
              writes (events (step (step w0 (Create v')) (Deliver h)))
              = (pre ++ [create_body (record w0) (Object_freeze (thaw v'))])%list) as Hquiet.
  { intros w0 Hin Hq _. cbn [step]. rewrite create_quiet by assumption.
    unfold deliver. cbn [inflight record events settled calls queue].
    destruct (create_then _ _ _ _). cbn [pump events].
    rewrite writes_app. eauto. }
  assert (forall (w0 : world) (o : nat * outstanding),
            inflight w0 = Some o -> queue w0 = [] ->
            exists pre,
              writes (events (step (step w0 (Create v')) (Deliver h)))
              = (pre ++ [create_body (record (step w0 (Deliver h)))
                                     (Object_freeze (thaw v'))])%list) as Hbusy.
  { intros w0 [id o] Hin Hq. cbn [step]. rewrite (create_busy _ _ _ Hwf Hin).
    unfold deliver. rewrite Hin, Hq.
    cbn [inflight record events settled calls queue app].
    destruct (match o with
              | OCreate payload enc => create_then _ payload enc _
              | OFetch => fetch_then _ _
              end) as [this' out].
    cbn [pump events record]. rewrite writes_app. eauto. }
  assert (forall v,
            exists pre,
              writes (events (run (idle this) [Create v; Create v'; Deliver h]))
              = (pre ++ [create_body (record (run (idle this) [Create v; Deliver h]))
                                     (Object_freeze (thaw v'))])%list) as Hcreate.
  { intros v. unfold run. cbn [fold_left].
    destruct (create_any this v) as [E|(payload & E)].
    - change (step (idle this) (Create v)) with (create (idle this) v). rewrite E.
      destruct (Hquiet (idle this)) as [pre Hpre]; try reflexivity.
      exists pre. exact Hpre.
    - change (step (idle this) (Create v)) with (create (idle this) v). rewrite E.
      eapply Hbusy; reflexivity. }
  destruct i as [v|v| |h0].
  - apply Hcreate.
  - unfold run in *. cbn [fold_left] in *.
    change (step (idle this) (Update v)) with (update (idle this) v).
    unfold update. cbn [idle record].
    destruct (same_json v (_value this)).
    + unfold next. cbn [idle inflight queue record events settled calls app pump].
      apply (Hquiet {| record := this; queue := []; inflight := None; events := [];
                       settled := [(0, toImmutable v)]; calls := 1 |});
        reflexivity.
    + apply Hcreate.
  - unfold run. cbn [fold_left].
    eapply (Hbusy (step (idle this) Fetch)); reflexivity.
  - unfold run. cbn [fold_left].
    apply (Hquiet (idle this)); reflexivity.
Qed.


End Operations.

(** ** The stand-in cipher meets what the codec expects *)

Module DoubleFacts.
Import Double.

Lemma strip_prefix_app (p s : string) : JSON.strip_prefix p (p ++ s) = Some s.
Proof.
  induction p as [|c p IH]; [reflexivity|]. simpl. now rewrite Ascii.eqb_refl.
Qed.

Lemma string_of_buffer (s : string) : BufferToString (StringToBuffer s) = s.
Proof. apply string_of_list_byte_of_string. Qed.

Lemma sealed_text (data : string) (key : Buffer) :
  BufferToString (B64ToBuffer (encrypt data key)) = seal key ++ data.
Proof.
  unfold encrypt, B64ToBuffer, BufferToB64.
  now rewrite Base64Facts.base64_decode_encode, string_of_buffer.
Qed.

Lemma cipher_laws : CipherLaws collaborators.
Proof.
  split.
  - intros data key. eexists. reflexivity.
  - intros data key. cbn [decryptDataWithKey encryptDataWithKey collaborators].
    unfold decrypt. rewrite sealed_text. apply strip_prefix_app.
Qed.

#[export] Existing Instance cipher_laws.

Local Ltac Zify.zify_post_hook ::= Z.to_euclidean_division_equations.

(** A sealed text opens under the name of its own key only. *)
Lemma seal_opens (a b : Buffer) (d s : string) :
  JSON.strip_prefix (seal a) (seal b ++ d) = Some s -> a = b.
Proof.
  unfold seal. revert b. induction a as [|x a IH]; intros [|y b].
  - reflexivity.
  - pose proof (Byte.to_N_bounded y) as Hy.
    cbn [Hex.encode append JSON.strip_prefix]. rewrite Ascii.eqb_sym.
    rewrite HexFacts.digit_not_colon by lia. discriminate.
  - pose proof (Byte.to_N_bounded x) as Hx.
    cbn [Hex.encode append JSON.strip_prefix].
    rewrite HexFacts.digit_not_colon by lia. discriminate.
  - pose proof (Byte.to_N_bounded x) as Hx. pose proof (Byte.to_N_bounded y) as Hy.
    cbn [Hex.encode append JSON.strip_prefix].
    destruct (Ascii.eqb_spec (Hex.digit (Byte.to_N x / 16)) (Hex.digit (Byte.to_N y / 16)))
      as [E1|]; [|discriminate].
    destruct (Ascii.eqb_spec (Hex.digit (Byte.to_N x mod 16))
                             (Hex.digit (Byte.to_N y mod 16)))
      as [E2|]; [|discriminate].
    intros Hs. apply IH in Hs. subst b.
    apply HexFacts.digit_injective in E1; [|lia..].
    apply HexFacts.digit_injective in E2; [|lia..].
    f_equal. rewrite <- (Base64Facts.byte_of_to_N x), <- (Base64Facts.byte_of_to_N y).
    f_equal. lia.
Qed.

Lemma spec_cipher : SpecCipher collaborators.
Proof.
  split; [exact cipher_laws|].
  intros data key key' s Hne.
  cbn [decryptDataWithKey encryptDataWithKey collaborators].
  unfold decrypt. rewrite sealed_text. intros H.
  apply seal_opens in H. congruence.
Qed.

#[export] Existing Instance spec_cipher.

End DoubleFacts.

(** ** The codec *)

Section Codec.
Context {C : Collaborators} {S : SpecCipher C}.

Lemma decode_unfold (key : option Buffer) (text : string) :
  decode key text
  = match key with
    | Some encKey => s <- decrypt encKey (Some (VStr text)) ;; JSON_parse s
    | None => JSON_parse (BufferToString (B64ToBuffer text))
    end.
Proof. destruct key; reflexivity. Qed.

(** Under a key the payload is the text the cipher gave. *)
Lemma encode_encrypted (key : Buffer) (v : jsval) :
  encode (Some key) v = encryptDataWithKey (JSON.stringify v) key.
Proof.
  unfold encode, encrypt.
  destruct (@encrypt_base64 C spec_laws (JSON.stringify v) key) as [buff Hb].
  rewrite Hb. unfold B64ToBuffer, BufferToB64.
  now rewrite Base64Facts.base64_decode_encode.
Qed.


End Codec.

(** ** Concrete runs on the stand-in record *)

Module Runs.
Import Double.

Lemma fetch_not_found_witness :
  _magicHash fresh = None
  /\ settled (run (idle fresh) [Fetch; Deliver (Response 404 "Not Found")])
     = [(0, Resolved VNull)].
Proof.
  split; [reflexivity|].
  apply (fetch_not_found fresh "Not Found"). reflexivity.
Defined.








(** The scenario of two writes on a fresh record: the first envelope
    has no prior hash, the second carries the hash the first write
    produced, and a second PUT that is refused leaves the first value. *)
Example two_writes :
  let w := run (idle fresh) [Create a1; Create a2; Deliver ok; Deliver (Response 400 "bad")] in
  map prev_magic_hash (writes (events w))
  = [None; Some "c007ac17146a5f2705f5d32158195b8511b582e60497fbb295072b857ea1d3b7"]
  /\ _value (record w) = Some (Object_freeze a1)
  /\ map snd (settled w) = [Resolved (Object_freeze a1); Rejected (ResponseText "bad")].
Proof. vm_compute. repeat split; reflexivity. Qed.

End Runs.

(** * Further properties *)

(** ** Digests are 32 bytes *)

Module SHA256Facts.
Import SHA256.

Lemma length_add_words (x y : list N) :
  List.length y = List.length x -> List.length (add_words x y) = List.length x.
Proof.
  revert y. induction x as [|a x IH]; intros [|b y] H; simpl in *; try congruence.
  now rewrite IH by congruence.
Qed.

Lemma length_round (st : list N) (kw : N * N) :
  List.length (round st kw) = List.length st.
Proof.
  unfold round.
  destruct st as [|a [|b [|c [|d [|e [|f [|g [|h [|i r]]]]]]]]]; reflexivity.
Qed.

Lemma length_rounds (l : list (N * N)) (st : list N) :
  List.length (fold_left round l st) = List.length st.
Proof.
  revert st. induction l as [|kw l IH]; intros st; simpl; [reflexivity|].
  now rewrite IH, length_round.
Qed.

Lemma length_compress (st block : list N) :
  List.length (compress st block) = List.length st.
Proof. unfold compress. apply length_add_words, length_rounds. Qed.

Lemma length_blocks (fuel : nat) (st l : list N) :
  List.length (blocks fuel st l) = List.length st.
Proof.
  revert st l. induction fuel as [|fuel IH]; intros st l; simpl; [reflexivity|].
  destruct l; [reflexivity|]. now rewrite IH, length_compress.
Qed.

Lemma length_H0 : List.length H0 = 8.
Proof. vm_compute. reflexivity. Qed.

Lemma length_flat_words (l : list N) :
  List.length (flat_map bytes_of_word l) = 4 * List.length l.
Proof. induction l as [|w l IH]; simpl; [reflexivity|]. rewrite IH. lia. Qed.

Lemma length_digest (msg : list N) : List.length (digest msg) = 32.
Proof.
  unfold digest. rewrite length_flat_words, length_blocks, length_H0. reflexivity.
Qed.

End SHA256Facts.

Lemma length_sha256 (b : Buffer) : List.length (sha256 b) = 32.
Proof. unfold sha256. rewrite length_map. apply SHA256Facts.length_digest. Qed.

(** ** What [JSON.parse] builds *)

Module JSONSound.
Import JSON JSONMeasures.

Lemma parse_value_S (f : nat) (s : string) :
  parse_value (S f) s
  = match skip_ws s with
    | EmptyString => None
    | String c r =>
        if Ascii.eqb c "{" then
          match skip_ws r with
          | String c' r' =>
              if Ascii.eqb c' "}" then Some (VObj false [], r')
              else parse_members f [] r
          | EmptyString => None
          end
        else if Ascii.eqb c "[" then
          match skip_ws r with
          | String c' r' =>
              if Ascii.eqb c' "]" then Some (VArr false [], r')
              else parse_elements f [] r
          | EmptyString => None
          end
        else if Ascii.eqb c dquote then
          match parse_chars r with
          | Some (str, rest) => Some (VStr str, rest)
          | None => None
          end
        else if Ascii.eqb c "t" then literal "rue" (VBool true) r
        else if Ascii.eqb c "f" then literal "alse" (VBool false) r
        else if Ascii.eqb c "n" then literal "ull" VNull r
        else parse_number (String c r)
    end.
Proof. reflexivity. Qed.

Lemma parse_elements_S (f : nat) (acc : list jsval) (s : string) :
  parse_elements (S f) acc s
  = match parse_value f s with
    | Some (v, r) =>
        match skip_ws r with
        | String c r' =>
            if Ascii.eqb c "," then parse_elements f (acc ++ [v]) r'
            else if Ascii.eqb c "]" then Some (VArr false (acc ++ [v]), r')
            else None
        | EmptyString => None
        end
    | None => None
    end.
Proof. reflexivity. Qed.

Lemma parse_members_S (f : nat) (acc : list (string * jsval)) (s : string) :
  parse_members (S f) acc s
  = match skip_ws s with
    | String q r =>
        if Ascii.eqb q dquote then
          match parse_chars r with
          | Some (k, r1) =>
              match skip_ws r1 with
              | String c r2 =>
                  if Ascii.eqb c ":" then
                    match parse_value f r2 with
                    | Some (v, r3) =>
                        match skip_ws r3 with
                        | String c' r4 =>
                            if Ascii.eqb c' "," then
                              parse_members f (obj_set acc k v) r4
                            else if Ascii.eqb c' "}" then
                              Some (VObj false (obj_set acc k v), r4)
                            else None
                        | EmptyString => None
                        end
                    | None => None
                    end
                  else None
              | EmptyString => None
              end
          | None => None
          end
        else None
    | EmptyString => None
    end.
Proof. reflexivity. Qed.

Lemma has_key_obj_set (acc : list (string * jsval)) (k k' : string) (v : jsval) :
  has_key k' (obj_set acc k v) = has_key k' acc || String.eqb k k'.
Proof.
  induction acc as [|[k0 v0] acc IH]; simpl.
  - now rewrite orb_false_r.
  - destruct (String.eqb k0 k) eqn:E; simpl.
    + apply String.eqb_eq in E. subst k0.
      destruct (String.eqb k k'), (has_key k' acc); reflexivity.
    + rewrite IH. apply orb_assoc.
Qed.

Lemma distinct_keys_obj_set (acc : list (string * jsval)) (k : string) (v : jsval) :
  distinct_keys acc = true -> distinct_keys (obj_set acc k v) = true.
Proof.
  induction acc as [|[k0 v0] acc IH]; simpl; [reflexivity|].
  intros H. apply andb_prop in H as [Hk Hd].
  destruct (String.eqb_spec k0 k) as [->|Hne]; simpl.
  - now rewrite Hk, Hd.
  - rewrite has_key_obj_set, IH by assumption.
    apply negb_true_iff in Hk. rewrite Hk.
    destruct (String.eqb_spec k k0) as [->|_]; [congruence | reflexivity].
Qed.

Lemma forallb_obj_set (P : jsval -> bool) (acc : list (string * jsval))
  (k : string) (v : jsval) :
  forallb (fun kv => P (snd kv)) acc = true -> P v = true ->
  forallb (fun kv => P (snd kv)) (obj_set acc k v) = true.
Proof.
  intros Hacc Hv. induction acc as [|[k0 v0] acc IH]; simpl in *.
  - now rewrite Hv.
  - apply andb_prop in Hacc as [H0 Hacc].
    destruct (String.eqb k0 k); simpl.
    + now rewrite Hv, Hacc.
    + now rewrite H0, IH.
Qed.

Lemma forallb_snoc (A : Type) (P : A -> bool) (l : list A) (x : A) :
  forallb P l = true -> P x = true -> forallb P (l ++ [x]) = true.
Proof. intros Hl Hx. rewrite forallb_app, Hl. simpl. now rewrite Hx. Qed.

Lemma strip10_stop (fuel : nat) (m t : Z) :
  (0 < m < 2 ^ Z.of_nat fuel)%Z ->
  (0 <= snd (strip10 fuel true m t))%Z
  \/ canonical (fst (strip10 fuel true m t)) = true.
Proof.
  revert m t. induction fuel as [|f IH]; intros m t Hm.
  - change (2 ^ Z.of_nat 0)%Z with 1%Z in Hm. lia.
  - cbn [strip10].
    destruct (Z.eqb_spec (m mod 10) 0) as [E|E]; cbn [andb].
    + destruct (Z.leb_spec 0 t); cbn [andb negb fst snd].
      * left. assumption.
      * apply IH. rewrite Nat2Z.inj_succ, Z.pow_succ_r in Hm by lia.
        pose proof (Z.div_mod m 10). lia.
    + right. cbn [fst]. unfold canonical. rewrite Z.abs_eq by lia.
      apply negb_true_iff. now apply Z.eqb_neq.
Qed.

Lemma strip10_nonpos (fuel : nat) (m t : Z) :
  (t <= 0)%Z -> (snd (strip10 fuel true m t) <= 0)%Z.
Proof.
  revert m t. induction fuel as [|f IH]; intros m t Ht; [exact Ht|].
  cbn [strip10]. destruct (m mod 10 =? 0)%Z; cbn [andb]; [|exact Ht].
  destruct (Z.leb_spec 0 t); cbn [negb]; [exact Ht|]. apply IH. lia.
Qed.

Lemma canonical_opp (m : Z) : canonical (- m) = canonical m.
Proof. unfold canonical. now rewrite Z.abs_opp. Qed.

Lemma bits_bound (m : Z) : (0 < m)%Z -> (0 < m < 2 ^ Z.of_nat (bits m))%Z.
Proof.
  intros Hm. split; [assumption|]. unfold bits.
  pose proof (Z.log2_spec m Hm). pose proof (Z.log2_nonneg m).
  rewrite Nat2Z.inj_succ, Z2Nat.id by assumption. lia.
Qed.

(** A number that [JSON.parse] makes is an integer or has no trailing
    zero. *)
Lemma number_value_canonical (neg : bool) (m e : Z) :
  (0 <= m)%Z ->
  match number_value neg m e with
  | VNum _ => True
  | VDec m' _ => canonical m' = true
  | _ => False
  end.
Proof.
  intros Hm. unfold number_value.
  destruct (Z.eqb_spec m 0) as [|Hm0]; [exact I|].
  destruct (Z.leb_spec 0 e) as [|He]; [exact I|].
  pose proof (strip10_stop (bits m) m e (bits_bound m ltac:(lia))) as H.
  pose proof (strip10_nonpos (bits m) m e ltac:(lia)) as Hle.
  destruct (strip10 (bits m) true m e) as [m' e']. cbn [fst snd] in H, Hle.
  destruct (Z.eqb_spec e' 0); [exact I|].
  destruct H as [H|H]; [lia|].
  destruct neg; [rewrite canonical_opp|]; exact H.
Qed.

Lemma uint_value_nonneg (d : string) (m : Z) : uint_value d = Some m -> (0 <= m)%Z.
Proof.
  unfold uint_value. destruct (DecimalString.NilEmpty.uint_of_string d); [|discriminate].
  intros [= <-]. unfold Z.of_uint. lia.
Qed.

Lemma parse_number_made (s : string) (v : jsval) (r : string) :
  parse_number s = Some (v, r) -> made v.
Proof.
  unfold parse_number. destruct (take_sign s) as [neg s1].
  destruct (parse_int s1) as [[i r1]|]; [|discriminate].
  destruct (parse_frac r1) as [[f r2]|]; [|discriminate].
  destruct (parse_exp r2) as [[x r3]|]; [|discriminate].
  destruct (uint_value (i ++ f)) as [m|] eqn:Hm; [|discriminate].
  intros [= <- _].
  pose proof (number_value_canonical neg m (x - Z.of_nat (String.length f))
                (uint_value_nonneg _ _ Hm)) as H.
  destruct (number_value neg m _); try contradiction; split; try reflexivity.
  exact H.
Qed.

Lemma literal_made (p : string) (v0 : jsval) (s : string) (v : jsval) (r : string) :
  made v0 -> literal p v0 s = Some (v, r) -> made v.
Proof.
  unfold literal. intros H0. destruct (strip_prefix p s); [|discriminate].
  now intros [= <- _].
Qed.

Lemma parse_sound (fuel : nat) :
  (forall s v r, parse_value fuel s = Some (v, r) -> made v)
  /\ (forall acc s v r,
        parse_elements fuel acc s = Some (v, r) ->
        forallb well_formed acc = true -> forallb plain acc = true -> made v)
  /\ (forall acc s v r,
        parse_members fuel acc s = Some (v, r) ->
        distinct_keys acc = true ->
        forallb (fun kv => well_formed (snd kv)) acc = true ->
        forallb (fun kv => plain (snd kv)) acc = true -> made v).
Proof.
  induction fuel as [|f (IHv & IHe & IHm)]; [repeat split; discriminate|].
  split; [|split].
  - intros s v r. rewrite parse_value_S.
    destruct (skip_ws s) as [|c r0]; [discriminate|].
    destruct (Ascii.eqb c "{").
    { destruct (skip_ws r0) as [|c' r']; [discriminate|].
      destruct (Ascii.eqb c' "}").
      - intros [= <- _]. split; reflexivity.
      - intros H. apply (IHm _ _ _ _ H); reflexivity. }
    destruct (Ascii.eqb c "[").
    { destruct (skip_ws r0) as [|c' r']; [discriminate|].
      destruct (Ascii.eqb c' "]").
      - intros [= <- _]. split; reflexivity.
      - intros H. apply (IHe _ _ _ _ H); reflexivity. }
    destruct (Ascii.eqb c dquote).
    { destruct (parse_chars r0) as [[str rest]|]; [|discriminate].
      intros [= <- _]. split; reflexivity. }
    destruct (Ascii.eqb c "t"); [apply literal_made; split; reflexivity|].
    destruct (Ascii.eqb c "f"); [apply literal_made; split; reflexivity|].
    destruct (Ascii.eqb c "n"); [apply literal_made; split; reflexivity|].
    apply parse_number_made.
  - intros acc s v r. rewrite parse_elements_S.
    destruct (parse_value f s) as [[x r0]|] eqn:Hx; [|discriminate].
    destruct (IHv _ _ _ Hx) as [Hwx Hpx].
    destruct (skip_ws r0) as [|c r']; [discriminate|].
    destruct (Ascii.eqb c ",").
    { intros H Hw Hp. apply (IHe _ _ _ _ H); now apply forallb_snoc. }
    destruct (Ascii.eqb c "]"); [|discriminate].
    intros [= <- _] Hw Hp. split; simpl; now apply forallb_snoc.
  - intros acc s v r. rewrite parse_members_S.
    destruct (skip_ws s) as [|q r0]; [discriminate|].
    destruct (Ascii.eqb q dquote); [|discriminate].
    destruct (parse_chars r0) as [[k r1]|]; [|discriminate].
    destruct (skip_ws r1) as [|c r2]; [discriminate|].
    destruct (Ascii.eqb c ":"); [|discriminate].
    destruct (parse_value f r2) as [[x r3]|] eqn:Hx; [|discriminate].
    destruct (IHv _ _ _ Hx) as [Hwx Hpx].
    destruct (skip_ws r3) as [|c' r4]; [discriminate|].
    destruct (Ascii.eqb c' ",").
    { intros H Hd Hw Hp.
      apply (IHm _ _ _ _ H);
        [now apply distinct_keys_obj_set | now apply forallb_obj_set..]. }
    destruct (Ascii.eqb c' "}"); [|discriminate].
    intros [= <- _] Hd Hw Hp. split; simpl.
    + rewrite distinct_keys_obj_set by assumption. now apply forallb_obj_set.
    + now apply forallb_obj_set.
Qed.

Lemma parse_made (s : string) (v : jsval) : parse s = Some v -> made v.
Proof.
  unfold parse.
  destruct (parse_value (S (String.length s)) s) as [[x r]|] eqn:H; [|discriminate].
  destruct (skip_ws r); [|discriminate]. intros [= <-].
  exact (proj1 (parse_sound _) _ _ _ H).
Qed.

End JSONSound.

(** A parsed value is its own fresh parse: its snapshot is itself,
    frozen at the top. *)
Lemma toImmutable_parsed (s : string) (v : jsval) :
  JSON_parse s = Resolved v -> toImmutable v = Resolved (Object_freeze v).
Proof.
  unfold JSON_parse. destruct (JSON.parse s) as [x|] eqn:H; [|discriminate].
  intros [= <-]. destruct (JSONSound.parse_made _ _ H) as [Hw Hp].
  rewrite toImmutable_snapshot by assumption. now rewrite JSONFacts.thaw_plain.
Qed.


(** ** What every run of a record keeps *)

Section Invariants.
Context {C : Collaborators}.

Lemma pump_record (q : list (nat * task)) (this : Metadata) (ev : list event)
  (st : list (nat * promise jsval)) (n : nat) :
  record (pump this ev st n q) = this.
Proof.
  revert st. induction q as [|[id t] q IH]; intros st; [reflexivity|].
  destruct t; cbn [pump record]; [reflexivity | apply IH | reflexivity].
Qed.

Lemma next_record (w : world) (f : task) : record (next w f) = record w.
Proof. unfold next. destruct (inflight w); [reflexivity | apply pump_record]. Qed.

Lemma create_record (w : world) (v : jsval) : record (create w v) = record w.
Proof. unfold create. destruct (toImmutable v); [apply next_record | reflexivity]. Qed.

Lemma update_record (w : world) (v : jsval) : record (update w v) = record w.
Proof.
  unfold update. destruct (same_json _ _); [apply next_record | apply create_record].
Qed.

Lemma saveValue_identity (this : Metadata) (value : jsval) :
  identity (fst (saveValue this value)) = identity this
  /\ _magicHash (fst (saveValue this value)) = _magicHash this.
Proof.
  unfold saveValue. destruct value; cbn [fst]; try (split; reflexivity);
    destruct (toImmutable _); split; reflexivity.
Qed.

Lemma fetch_then_identity (this : Metadata) (get : promise jsval) :
  identity (fst (fetch_then this get)) = identity this.
Proof.
  rewrite fetch_then_cases. destruct get as [res|e]; [|reflexivity].
  destruct (verifyResponse _ res) as [[[res1 h']|]|e]; try reflexivity.
  destruct (extractResponse _ res1) as [value|e]; [|reflexivity].
  cbn [fst]. now rewrite (proj1 (saveValue_identity _ _)).
Qed.

Lemma create_then_identity (this : Metadata) (p : jsval) (enc : Buffer)
  (put : promise jsval) :
  identity (fst (create_then this p enc put)) = identity this.
Proof. destruct put; reflexivity. Qed.

Lemma deliver_cases (w : world) (h : http_result) :
  deliver w h = w
  \/ exists id o,
       inflight w = Some (id, o)
       /\ deliver w h
          = pump (fst (match o with
                       | OCreate p enc => create_then (record w) p enc (request PUT h)
                       | OFetch => fetch_then (record w) (request GET h)
                       end))
                 (events w)
                 (settled w ++ [(id, snd (match o with
                                          | OCreate p enc =>
                                              create_then (record w) p enc (request PUT h)
                                          | OFetch => fetch_then (record w) (request GET h)
                                          end))])
                 (calls w) (queue w).
Proof.
  unfold deliver. destruct (inflight w) as [[id o]|]; [right | left; reflexivity].
  exists id, o. split; [reflexivity|].
  destruct (match o with
            | OCreate p enc => create_then (record w) p enc (request PUT h)
            | OFetch => fetch_then (record w) (request GET h)
            end). reflexivity.
Qed.

Lemma step_identity (w : world) (i : input) :
  identity (record (step w i)) = identity (record w).
Proof.
  destruct i as [v|v| |h]; cbn [step].
  - now rewrite create_record.
  - now rewrite update_record.
  - unfold fetch. now rewrite next_record.
  - destruct (deliver_cases w h) as [->|(id & o & _ & ->)]; [reflexivity|].
    rewrite pump_record. destruct o.
    + apply create_then_identity.
    + apply fetch_then_identity.
Qed.

Lemma run_identity (w : world) (l : list input) :
  identity (record (run w l)) = identity (record w).
Proof.
  unfold run. revert w. induction l as [|i l IH]; intros w; [reflexivity|].
  cbn [fold_left]. now rewrite IH, step_identity.
Qed.

(** X1: whatever is called and whatever the network answers, a record
    keeps its version, type, address, signing key and encryption key. *)
Theorem run_keeps_identity (w : world) (l : list input) :
  VERSION (record (run w l)) = VERSION (record w)
  /\ _typeId (record (run w l)) = _typeId (record w)
  /\ _address (record (run w l)) = _address (record w)
  /\ _signKey (record (run w l)) = _signKey (record w)
  /\ _encKeyBuffer (record (run w l)) = _encKeyBuffer (record w).
Proof.
  pose proof (run_identity w l) as H. unfold identity in H.
  injection H as H1 H2 H3 H4 H5. repeat split; assumption.
Qed.

Lemma fetch_then_established (this : Metadata) (get : promise jsval) :
  existsOnServer this = true -> existsOnServer (fst (fetch_then this get)) = true.
Proof.
  intros H. rewrite fetch_then_cases. destruct get as [res|e]; [|exact H].
  destruct (verifyResponse _ res) as [[[res1 h']|]|e]; try exact H.
  destruct (extractResponse _ res1) as [value|e]; [|reflexivity].
  cbn [fst]. unfold existsOnServer.
  now rewrite (proj2 (saveValue_identity _ _)).
Qed.

Lemma step_established (w : world) (i : input) :
  existsOnServer (record w) = true -> existsOnServer (record (step w i)) = true.
Proof.
  intros H. destruct i as [v|v| |h]; cbn [step].
  - now rewrite create_record.
  - now rewrite update_record.
  - unfold fetch. now rewrite next_record.
  - destruct (deliver_cases w h) as [->|(id & o & _ & ->)]; [exact H|].
    rewrite pump_record. destruct o.
    + destruct (request PUT h); [reflexivity | exact H].
    + now apply fetch_then_established.
Qed.


Lemma pump_sequence (q : list (nat * task)) (this : Metadata) (ev : list event)
  (st : list (nat * promise jsval)) (n : nat) :
  let w := pump this ev st n q in
  (map fst (settled w) ++ pending w = map fst st ++ map fst q)%list
  /\ calls w = n
  /\ (inflight w = None -> queue w = []).
Proof.
  revert st. induction q as [|[id t] q IH]; intros st.
  - cbn. repeat split; reflexivity.
  - destruct t as [p|p|]; cbn [pump].
    + cbn. repeat split; try reflexivity. discriminate.
    + destruct (IH (st ++ [(id, toImmutable p)])%list) as (H1 & H2 & H3).
      repeat split; try assumption.
      rewrite H1, map_app, <- app_assoc. reflexivity.
    + cbn. repeat split; try reflexivity. discriminate.
Qed.

Lemma next_sequence (w : world) (f : task) : in_sequence w -> in_sequence (next w f).
Proof.
  intros [Hseq Hq]. unfold next. destruct (inflight w) as [[id o]|] eqn:Hin.
  - split; [|discriminate]. unfold pending in *.
    cbn [inflight queue settled calls]. rewrite Hin in Hseq.
    rewrite map_app, !app_assoc. rewrite app_assoc in Hseq. rewrite Hseq.
    cbn [map fst]. rewrite seq_S. reflexivity.
  - rewrite (Hq eq_refl). cbn [app].
    destruct (pump_sequence [(calls w, f)] (record w) (events w) (settled w) (S (calls w)))
      as (H1 & H2 & H3).
    split; [|exact H3]. rewrite H1, H2. unfold pending in Hseq.
    rewrite Hin, (Hq eq_refl) in Hseq. cbn [map app] in Hseq.
    rewrite app_nil_r in Hseq. rewrite Hseq. cbn [map fst]. now rewrite seq_S.
Qed.

Lemma step_sequence (w : world) (i : input) : in_sequence w -> in_sequence (step w i).
Proof.
  intros H. destruct i as [v|v| |h]; cbn [step].
  - unfold create. destruct (toImmutable v); [now apply next_sequence | exact H].
  - unfold update. destruct (same_json _ _); [now apply next_sequence|].
    unfold create. destruct (toImmutable v); [now apply next_sequence | exact H].
  - now apply next_sequence.
  - destruct (deliver_cases w h) as [->|(id & o & Hin & ->)]; [exact H|].
    destruct H as [Hseq _].
    match goal with
    | |- in_sequence (pump ?r ?ev ?st ?n ?q) =>
        destruct (pump_sequence q r ev st n) as (H1 & H2 & H3)
    end.
    split; [|exact H3]. rewrite H1, H2. unfold pending in Hseq. rewrite Hin in Hseq.
    rewrite map_app, <- app_assoc. exact Hseq.
Qed.

Lemma next_calls (w : world) (f : task) : calls (next w f) = S (calls w).
Proof.
  unfold next. destruct (inflight w); [reflexivity|].
  now destruct (pump_sequence (queue w ++ [(calls w, f)]) (record w) (events w)
                  (settled w) (S (calls w))) as (_ & H & _).
Qed.

Lemma step_calls (w : world) (i : input) :
  payload_ok i = true ->
  calls (step w i) = if is_call i then S (calls w) else calls w.
Proof.
  intros Hok. destruct i as [v|v| |h]; cbn [step is_call payload_ok] in *.
  - unfold create. rewrite toImmutable_snapshot by assumption. apply next_calls.
  - unfold update. destruct (same_json _ _); [apply next_calls|].
    unfold create. rewrite toImmutable_snapshot by assumption. apply next_calls.
  - apply next_calls.
  - destruct (deliver_cases w h) as [->|(id & o & Hin & ->)]; [reflexivity|].
    match goal with
    | |- calls (pump ?r ?ev ?st ?n ?q) = _ =>
        now destruct (pump_sequence q r ev st n) as (_ & H & _)
    end.
Qed.

Lemma run_calls (w : world) (l : list input) :
  forallb payload_ok l = true ->
  calls (run w l) = calls w + List.length (filter is_call l).
Proof.
  unfold run. revert w. induction l as [|i l IH]; intros w Hl; cbn [fold_left].
  - cbn. lia.
  - cbn [forallb] in Hl. apply andb_prop in Hl as [Hi Hl].
    rewrite IH, step_calls by assumption. cbn [filter].
    destruct (is_call i); cbn [List.length]; lia.
Qed.

(** X3: the calls on a record settle one by one in the order they were
    made: at every moment the settled calls followed by the outstanding
    one and the waiting ones are the calls made so far, in order, each
    once, and a callback waits only while a request is outstanding. The
    calls made so far are the calls of the run, every one of them: none
    is dropped and none added (for payloads that are actual values). *)
Theorem run_in_sequence (this : Metadata) (l : list input) :
  let w := run (idle this) l in
  in_sequence w
  /\ (forallb payload_ok l = true ->
      calls w = List.length (filter is_call l)
      /\ (map fst (settled w) ++ pending w)%list
         = seq 0 (List.length (filter is_call l))).
Proof.
  intros w.
  assert (forall w0, in_sequence w0 -> in_sequence (run w0 l)) as H.
  { unfold run. induction l as [|i l IH]; intros w0 Hw; [exact Hw|].
    cbn [fold_left]. apply IH. now apply step_sequence. }
  assert (in_sequence w) as Hseq by (apply H; split; reflexivity).
  split; [exact Hseq|]. intros Hok.
  assert (calls w = List.length (filter is_call l)) as Hcalls
    by (subst w; now rewrite run_calls).
  split; [exact Hcalls|]. destruct Hseq as [Hs _]. now rewrite Hs, Hcalls.
Qed.

End Invariants.

(** ** Chains of writes *)

Section Chains.
Context {C : Collaborators}.

Lemma create_then_ok (this : Metadata) (p : jsval) (h : http_result) :
  put_ok h = true ->
  create_then this p (encPayloadBuffer this p) (request PUT h)
  = (written this p, Resolved p).
Proof.
  unfold put_ok, written. destruct (request PUT h); [reflexivity | discriminate].
Qed.

Lemma written_key (this : Metadata) (p : jsval) :
  _encKeyBuffer (written this p) = _encKeyBuffer this.
Proof. reflexivity. Qed.

Lemma encPayloadBuffer_key (a b : Metadata) (p : jsval) :
  _encKeyBuffer a = _encKeyBuffer b -> encPayloadBuffer a p = encPayloadBuffer b p.
Proof. unfold encPayloadBuffer. now intros ->. Qed.

Lemma written_magicHash (this : Metadata) (p : jsval) :
  _magicHash (written this p) = Some (magic (encPayloadBuffer this p) (_magicHash this)).
Proof. reflexivity. Qed.

Lemma bodies_links (this : Metadata) (vs : list jsval) (r : Metadata) :
  _encKeyBuffer r = _encKeyBuffer this ->
  map prev_magic_hash (bodies r (map (fun v => Object_freeze (thaw v)) vs))
  = map (option_map Hex.encode) (links this (_magicHash r) vs)
  /\ _magicHash (fold_left written (map (fun v => Object_freeze (thaw v)) vs) r)
     = chain this (_magicHash r) vs.
Proof.
  revert r. induction vs as [|v vs IH]; intros r Hk; [split; reflexivity|].
  cbn [map bodies links fold_left]. unfold chain. cbn [fold_left].
  destruct (IH (written r (Object_freeze (thaw v)))) as [H1 H2];
    [now rewrite written_key|].
  rewrite written_magicHash, (encPayloadBuffer_key r this _ Hk) in H1, H2.
  split; [now rewrite H1 | exact H2].
Qed.

Lemma drain (q : list (nat * jsval)) :
  forall r id p ev st n hs,
    forallb put_ok hs = true -> List.length hs = S (List.length q) ->
    let w := run (writing r id p q ev st n) (map Deliver hs) in
    record w = fold_left written (p :: map snd q) r
    /\ writes (events w) = (writes ev ++ bodies (written r p) (map snd q))%list
    /\ map snd (settled w)
       = (map snd st ++ map (fun p => Resolved p) (p :: map snd q))%list
    /\ inflight w = None /\ queue w = [].
Proof.
  induction q as [|[id1 p1] q IH]; intros r id p ev st n hs Hok Hlen;
    destruct hs as [|h hs]; try discriminate Hlen;
    cbn [forallb] in Hok; apply andb_prop in Hok as [Hh Hok];
    unfold run; cbn [map fold_left step]; unfold deliver, writing;
    cbn [inflight record events settled calls queue map];
    rewrite (create_then_ok r p h Hh); cbn [pump fst snd].
  - destruct hs; [|discriminate Hlen].
    cbn [map fold_left record events settled inflight queue bodies].
    rewrite app_nil_r, map_app. repeat split; reflexivity.
  - injection Hlen as Hlen.
    specialize (IH (written r p) id1 p1
                   (ev ++ [Signed (message (encPayloadBuffer (written r p) p1)
                                           (_magicHash (written r p)));
                           Sent PUT (_address (written r p))
                                (Some (create_body (written r p) p1))])%list
                   (st ++ [(id, Resolved p)])%list n hs Hok Hlen).
    unfold run, writing in IH. cbn zeta in IH.
    destruct IH as (H1 & H2 & H3 & H4 & H5).
    repeat split; try assumption.
    + rewrite H2, writes_app, <- app_assoc. reflexivity.
    + rewrite H3, map_app, <- app_assoc. reflexivity.
Qed.

Lemma creates_busy (vs : list jsval) :
  forall w o,
    Forall (fun v => well_formed v = true) vs -> inflight w = Some o ->
    run w (map Create vs)
    = {| record := record w;
         queue := (queue w ++ creates_from (calls w) vs)%list;
         inflight := Some o; events := events w; settled := settled w;
         calls := calls w + List.length vs |}.
Proof.
  induction vs as [|v vs IH]; intros w o Hwf Hin.
  - cbn. rewrite app_nil_r, Nat.add_0_r. destruct w; cbn in *. now rewrite Hin.
  - inversion Hwf as [|? ? Hv Hvs]; subst.
    unfold run in *. cbn [map fold_left step].
    rewrite (create_busy w v o Hv Hin).
    match goal with
    | |- fold_left step _ ?w1 = _ => rewrite (IH w1 o Hvs (eq_refl (Some o)))
    end.
    cbn [record queue events settled calls creates_from List.length].
    rewrite <- app_assoc, Nat.add_succ_r. reflexivity.
Qed.

Lemma creates_from_payloads (n : nat) (vs : list jsval) :
  exists q : list (nat * jsval),
    creates_from n vs = map (fun ip => (fst ip, TCreate (snd ip))) q
    /\ map snd q = map (fun v => Object_freeze (thaw v)) vs.
Proof.
  revert n. induction vs as [|v vs IH]; intros n.
  - exists []. split; reflexivity.
  - destruct (IH (S n)) as (q & H1 & H2).
    exists ((n, Object_freeze (thaw v)) :: q). cbn. now rewrite H1, H2.
Qed.

Lemma awaited_run (vs : list jsval) :
  forall w hs,
    Forall (fun v => well_formed v = true) vs ->
    forallb put_ok hs = true -> List.length hs = List.length vs ->
    inflight w = None -> queue w = [] ->
    let w' := run w (awaited vs hs) in
    record w' = fold_left written (map (fun v => Object_freeze (thaw v)) vs) (record w)
    /\ writes (events w')
       = (writes (events w)
          ++ bodies (record w) (map (fun v => Object_freeze (thaw v)) vs))%list
    /\ inflight w' = None /\ queue w' = [].
Proof.
  induction vs as [|v vs IH]; intros w hs Hwf Hok Hlen Hin Hq.
  - destruct hs; [|discriminate Hlen]. cbn. rewrite app_nil_r. repeat split; assumption.
  - destruct hs as [|h hs]; [discriminate Hlen|]. injection Hlen as Hlen.
    inversion Hwf as [|? ? Hv Hvs]; subst.
    cbn [forallb] in Hok. apply andb_prop in Hok as [Hh Hok].
    unfold run in *. cbn [awaited fold_left step].
    rewrite (create_quiet w v Hv Hin Hq). cbv zeta.
    unfold deliver. cbn [inflight record events settled calls queue].
    rewrite (create_then_ok (record w) _ h Hh). cbn [pump].
    match goal with
    | |- context [fold_left step _ ?w1] =>
        destruct (IH w1 hs Hvs Hok Hlen eq_refl eq_refl) as (H1 & H2 & H3 & H4)
    end.
    cbn [record events] in H1, H2.
    repeat split; try assumption.
    rewrite H2, writes_app, <- app_assoc. reflexivity.
Qed.

(** X4: however many writes are called one behind the other without
    waiting, when every PUT succeeds each envelope carries the chain
    hash left by the write called before it, the record ends on the
    hash of the whole chain, and every call resolves with its snapshot,
    in order. On a record that does not encrypt, awaiting each write
    before calling the next sends the same envelopes and ends on the
    same record. *)
Theorem chained_creates (this : Metadata) (vs : list jsval) (hs : list http_result) :
  Forall (fun v => well_formed v = true) vs ->
  forallb put_ok hs = true -> List.length hs = List.length vs ->
  let w := run (idle this) (map Create vs ++ map Deliver hs) in
  map prev_magic_hash (writes (events w))
  = map (option_map Hex.encode) (links this (_magicHash this) vs)
  /\ _magicHash (record w) = chain this (_magicHash this) vs
  /\ map snd (settled w) = map (fun v => Resolved (Object_freeze (thaw v))) vs
  /\ inflight w = None /\ queue w = []
  /\ (_encKeyBuffer this = None ->
      writes (events (run (idle this) (awaited vs hs))) = writes (events w)
      /\ record (run (idle this) (awaited vs hs)) = record w).
Proof.
  intros Hwf Hok Hlen w.
  destruct (awaited_run vs (idle this) hs Hwf Hok Hlen eq_refl eq_refl)
    as (A1 & A2 & _ & _).
  cbn [idle record events writes app] in A1, A2.
  destruct (bodies_links this vs this eq_refl) as [L1 L2].
  assert (record w = fold_left written (map (fun v => Object_freeze (thaw v)) vs) this
          /\ writes (events w) = bodies this (map (fun v => Object_freeze (thaw v)) vs)
          /\ map snd (settled w) = map (fun v => Resolved (Object_freeze (thaw v))) vs
          /\ inflight w = None /\ queue w = []) as (B1 & B2 & B3 & B4 & B5).
  { subst w. destruct vs as [|v vs].
    - destruct hs; [|discriminate Hlen]. cbn. repeat split; reflexivity.
    - inversion Hwf as [|? ? Hv Hvs]; subst.
      unfold run. rewrite fold_left_app. cbn [map fold_left step].
      rewrite (create_idle this v Hv). cbv zeta.
      match goal with
      | |- context [fold_left step (map Create vs) ?w1] =>
          pose proof (creates_busy vs w1 _ Hvs eq_refl) as Hb
      end.
      unfold run in Hb. rewrite Hb. clear Hb.
      cbn [record queue events settled calls app].
      destruct (creates_from_payloads 1 vs) as (q & Hq1 & Hq2). rewrite Hq1.
      pose proof (drain q this 0 (Object_freeze (thaw v))
                    [Signed (message (encPayloadBuffer this (Object_freeze (thaw v)))
                                     (_magicHash this));
                     Sent PUT (_address this)
                          (Some (create_body this (Object_freeze (thaw v))))]
                    [] (1 + List.length vs) hs Hok) as Hd.
      unfold run, writing in Hd. cbv zeta in Hd.
      destruct Hd as (H1 & H2 & H3 & H4 & H5).
      { rewrite Hlen. cbn [List.length]. f_equal.
        rewrite <- (length_map snd q), Hq2, length_map. reflexivity. }
      rewrite Hq2 in H1, H2, H3.
      repeat split; try assumption.
      rewrite H3. cbn [map app]. now rewrite map_map. }
  rewrite B1, B2, B3, A1, A2. repeat split; try assumption; reflexivity.
Qed.

End Chains.

(** ** Snapshots, again *)

Lemma thaw_freeze (v : jsval) : thaw (Object_freeze v) = thaw v.
Proof. destruct v; reflexivity. Qed.

Lemma stringify_freeze (v : jsval) : JSON.stringify (Object_freeze v) = JSON.stringify v.
Proof. destruct v; reflexivity. Qed.

Lemma well_formed_freeze (v : jsval) : well_formed (Object_freeze v) = well_formed v.
Proof. destruct v; reflexivity. Qed.

Lemma has_key_thaw (k : string) (l : list (string * jsval)) :
  has_key k (map (fun kv => (fst kv, thaw (snd kv))) l) = has_key k l.
Proof. induction l as [|[k' x] l IH]; simpl; [reflexivity | now rewrite IH]. Qed.

Lemma distinct_keys_thaw (l : list (string * jsval)) :
  distinct_keys (map (fun kv => (fst kv, thaw (snd kv))) l) = distinct_keys l.
Proof.
  induction l as [|[k x] l IH]; simpl; [reflexivity|].
  now rewrite has_key_thaw, IH.
Qed.

Lemma well_formed_thaw (v : jsval) : well_formed (thaw v) = well_formed v.
Proof.
  induction v as [|b|z|s|fr l IH|fr l IH|m p] using jsval_ind; try reflexivity.
  - simpl. induction IH as [|x l Hx _ IHl]; simpl; [reflexivity|].
    now rewrite Hx, IHl.
  - simpl. rewrite distinct_keys_thaw. f_equal.
    induction IH as [|[k x] l Hx _ IHl]; simpl in *; [reflexivity|].
    now rewrite Hx, IHl.
Qed.

Lemma plain_thaw (v : jsval) : plain (thaw v) = true.
Proof.
  induction v as [|b|z|s|fr l IH|fr l IH|m p] using jsval_ind; try reflexivity.
  - simpl. induction IH as [|x l Hx _ IHl]; simpl; [reflexivity|].
    now rewrite Hx, IHl.
  - simpl. induction IH as [|[k x] l Hx _ IHl]; simpl in *; [reflexivity|].
    now rewrite Hx, IHl.
Qed.

Lemma thaw_thaw (v : jsval) : thaw (thaw v) = thaw v.
Proof. apply JSONFacts.thaw_plain, plain_thaw. Qed.

Lemma is_null_thaw (v : jsval) : is_null (thaw v) = is_null v.
Proof. destruct v; reflexivity. Qed.

(** X5: taking the snapshot of a snapshot changes nothing, and a
    snapshot serializes as the value it was taken from, frozen or not. *)
Theorem toImmutable_idempotent (v : jsval) :
  well_formed v = true ->
  exists s,
    toImmutable v = Resolved s
    /\ toImmutable s = Resolved s
    /\ toImmutable (thaw v) = Resolved s
    /\ JSON.stringify s = JSON.stringify v.
Proof.
  intros Hwf. exists (Object_freeze (thaw v)).
  rewrite !toImmutable_snapshot
    by (rewrite ?well_formed_freeze, ?well_formed_thaw; assumption).
  rewrite thaw_freeze, thaw_thaw, stringify_freeze, JSONFacts.stringify_thaw.
  repeat split; reflexivity.
Qed.

(** ** Reading responses *)

Section Fetching.
Context {C : Collaborators}.

Lemma verifyResponse_verified (address : string) (res : jsval)
  (sB : option Buffer) (pB : Buffer) (mB : option Buffer) :
  is_null res = false ->
  buffer_field B64ToBuffer "signature" res = Resolved sB ->
  buffer_field B64ToBuffer "payload" res = Resolved (Some pB) ->
  buffer_field Hex.decode "prev_magic_hash" res = Resolved mB ->
  Bitcoin_message_verify address sB (message pB mB) = Some true ->
  verifyResponse address res = Resolved (Some (res, magic pB mB)).
Proof.
  intros Hnull Hs Hp Hm Hv. rewrite verifyResponse_nonnull by assumption.
  rewrite Hs, Hp, Hm. cbn [bind]. unfold verify. rewrite Hv. reflexivity.
Qed.

Lemma extractResponse_payload (key : option Buffer) (res : jsval) :
  is_null res = false ->
  extractResponse key res
  = match key with
    | Some encKey => s <- decrypt encKey (prop "payload" res) ;; JSON_parse s
    | None =>
        b <- Buffer_from B64ToBuffer (prop "payload" res) ;;
        JSON_parse (BufferToString b)
    end.
Proof. destruct res; [discriminate | reflexivity..]. Qed.

(** What [extractResponse] resolves with is [null] or the parse of some
    text. *)
Lemma extractResponse_parsed (key : option Buffer) (res value : jsval) :
  extractResponse key res = Resolved value ->
  value = VNull \/ exists s, JSON_parse s = Resolved value.
Proof.
  destruct (is_null res) eqn:Hnull.
  - destruct res; try discriminate. cbn. intros [= <-]. now left.
  - rewrite extractResponse_payload by assumption. destruct key as [k|].
    + destruct (decrypt k _) as [s|]; cbn [bind]; [|discriminate]. eauto.
    + destruct (Buffer_from _ _) as [b|]; cbn [bind]; [|discriminate]. eauto.
Qed.

Lemma saveValue_parsed (this : Metadata) (value : jsval) :
  (value = VNull \/ exists s, JSON_parse s = Resolved value) ->
  saveValue this value
  = if is_null value then (this, Resolved VNull)
    else (set_value this (Object_freeze value), Resolved value).
Proof.
  intros [->|(s & Hs)]; [reflexivity|].
  unfold saveValue. rewrite (toImmutable_parsed s value Hs).
  destruct value; reflexivity.
Qed.

(** The outcome of a fetch whose response verified. *)
Lemma fetch_then_verified (this : Metadata) (res : jsval) (h' : Buffer) :
  verifyResponse (_address this) res = Resolved (Some (res, h')) ->
  fetch_then this (Resolved res)
  = match extractResponse (_encKeyBuffer this) res with
    | Rejected _ => (set_magicHash this h', Rejected FETCH_FAILED)
    | Resolved value =>
        if is_null value then (set_magicHash this h', Resolved VNull)
        else (set_value (set_magicHash this h') (Object_freeze value), Resolved value)
    end.
Proof.
  intros Hv. rewrite fetch_then_cases, Hv.
  destruct (extractResponse (_encKeyBuffer this) res) as [value|e] eqn:He;
    [|reflexivity].
  rewrite (saveValue_parsed _ value (extractResponse_parsed _ _ _ He)).
  destruct (is_null value); reflexivity.
Qed.




(** X9: a fetch does not look at the chain state the record holds: with
    any other chain hash and value in the record the same response has
    the same outcome, and when it resolves with a document the record
    ends with the same chain hash and value. The prior hash named by the
    response is not compared with the record's. *)
Theorem fetch_ignores_chain_state (this : Metadata) (h0 : option Buffer)
  (v0 : option jsval) (get : promise jsval) :
  snd (fetch_then (with_state this h0 v0) get) = snd (fetch_then this get)
  /\ (forall x, snd (fetch_then this get) = Resolved x -> is_null x = false ->
        _magicHash (fst (fetch_then (with_state this h0 v0) get))
        = _magicHash (fst (fetch_then this get))
        /\ _value (fst (fetch_then (with_state this h0 v0) get))
           = _value (fst (fetch_then this get))).
Proof.
  destruct get as [res|e]; [|split; [reflexivity | discriminate]].
  destruct (verifyResponse (_address this) res) as [[[res1 h']|]|e] eqn:Hv.
  - apply verifyResponse_accepted in Hv as Hres. destruct Hres as [-> _].
    rewrite (fetch_then_verified this res h' Hv).
    rewrite (fetch_then_verified (with_state this h0 v0) res h' Hv).
    cbn [with_state _encKeyBuffer].
    destruct (extractResponse (_encKeyBuffer this) res) as [value|e];
      [|split; [reflexivity | discriminate]].
    destruct (is_null value) eqn:Hn; split; try reflexivity.
    + intros x [= <-]. discriminate.
    + intros x _ _. split; reflexivity.
  - rewrite !fetch_then_cases. cbn [with_state _address]. rewrite Hv.
    split; [reflexivity|]. intros x [= <-]. discriminate.
  - rewrite !fetch_then_cases. cbn [with_state _address]. rewrite Hv.
    split; [reflexivity | discriminate].
Qed.

End Fetching.

(** ** What one record writes, another reads *)

Lemma base64_nonempty (b : Buffer) :
  b <> [] -> String.eqb (BufferToB64 b) EmptyString = false.
Proof.
  unfold BufferToB64. destruct b as [|x [|y [|z r]]]; [congruence | reflexivity..].
Qed.

Lemma hex_nonempty (b : Buffer) :
  b <> [] -> String.eqb (Hex.encode b) EmptyString = false.
Proof. destruct b; [congruence | reflexivity]. Qed.

Lemma b64_read_back (buff : Buffer) : B64ToBuffer (BufferToB64 buff) = buff.
Proof. apply Base64Facts.base64_decode_encode. Qed.

(** X10: [B64ToBuffer] reads back what [BufferToB64] wrote, for every
    buffer. *)
Theorem B64ToBuffer_BufferToB64 (buff : Buffer) : B64ToBuffer (BufferToB64 buff) = buff.
Proof. apply Base64Facts.base64_decode_encode. Qed.

Lemma stringify_nonempty (v : jsval) : StringToBuffer (JSON.stringify v) <> [].
Proof.
  destruct (JSONFacts.stringify_head v) as (c & r & Hs & _). rewrite Hs.
  unfold StringToBuffer. discriminate.
Qed.

Section Interop.
Context {C : Collaborators} {L : CipherLaws C} {S : SignatureLaws C}.

Lemma envelope_parsed (e : envelope) :
  JSON_parse (request_body e) = Resolved (envelope_value e).
Proof.
  unfold JSON_parse, request_body.
  rewrite JSONFacts.parse_stringify
    by (unfold envelope_value; destruct (prev_magic_hash e); reflexivity).
  unfold envelope_value. destruct (prev_magic_hash e); reflexivity.
Qed.

Lemma codec_reads_back (key : option Buffer) (p : jsval) (res : jsval) :
  well_formed p = true -> is_null res = false ->
  prop "payload" res = Some (VStr (encode key p)) ->
  extractResponse key res = Resolved (thaw p).
Proof.
  intros Hwf Hnull Hp. rewrite extractResponse_payload by assumption.
  rewrite Hp. unfold encode. destruct key as [key|]; cbn [Buffer_from bind].
  - destruct (encrypt_base64 (JSON.stringify p) key) as [buff Hb].
    unfold encrypt. rewrite Hb, b64_read_back, <- Hb.
    unfold decrypt. rewrite decrypt_encrypt. cbn [bind]. unfold JSON_parse.
    now rewrite JSONFacts.parse_stringify.
  - rewrite b64_read_back.
    unfold BufferToString, StringToBuffer. rewrite string_of_list_byte_of_string.
    unfold JSON_parse. now rewrite JSONFacts.parse_stringify.
Qed.

Lemma create_body_payload (this : Metadata) (p : jsval) :
  payload (create_body this p) = encode (_encKeyBuffer this) p.
Proof.
  unfold create_body, encPayloadBuffer, encode. cbn [payload].
  destruct (_encKeyBuffer this); reflexivity.
Qed.

Lemma reads_what_was_written (writer reader : Metadata) (v : jsval) :
  well_formed v = true ->
  _address reader = getAddress (_signKey writer) ->
  _encKeyBuffer reader = _encKeyBuffer writer ->
  _magicHash writer <> Some [] ->
  encPayloadBuffer writer (Object_freeze (thaw v)) <> [] ->
  let snapshot := Object_freeze (thaw v) in
  let sent := create_body writer snapshot in
  let w := run (idle reader) [Fetch; Deliver (Response 200 (request_body sent))] in
  settled w = [(0, Resolved (thaw v))]
  /\ _magicHash (record w) = _magicHash (written writer snapshot)
  /\ _value (record w) = (if is_null v then _value reader else Some snapshot).
Proof.
  intros Hwf Haddr Hkey Hprev Henc snapshot sent w. subst w.
  rewrite fetch_idle.
  change (request GET (Response 200 (request_body sent)))
    with (JSON_parse (request_body sent)).
  rewrite envelope_parsed.
  set (enc := encPayloadBuffer writer snapshot) in *.
  assert (verifyResponse (_address reader) (envelope_value sent)
          = Resolved (Some (envelope_value sent, magic enc (_magicHash writer)))) as Hv.
  { apply (verifyResponse_verified _ _
             (Some (computeSignature (_signKey writer) enc (_magicHash writer)))).
    - reflexivity.
    - unfold buffer_field.
      change (prop "signature" (envelope_value sent))
        with (Some (VStr (signature sent))).
      cbn [truthy]. unfold sent, create_body. cbn [signature]. fold enc.
      rewrite base64_nonempty by apply sign_nonempty.
      cbn [negb Buffer_from bind]. now rewrite b64_read_back.
    - unfold buffer_field.
      change (prop "payload" (envelope_value sent)) with (Some (VStr (payload sent))).
      cbn [truthy]. unfold sent, create_body. cbn [payload]. fold enc.
      rewrite base64_nonempty by assumption.
      cbn [negb Buffer_from bind]. now rewrite b64_read_back.
    - unfold buffer_field.
      change (prop "prev_magic_hash" (envelope_value sent))
        with (Some (match prev_magic_hash sent with
                    | Some h => VStr h
                    | None => VNull
                    end)).
      unfold sent, create_body. cbn [prev_magic_hash].
      destruct (_magicHash writer) as [h0|] eqn:E; cbn [option_map truthy];
        [|reflexivity].
      rewrite hex_nonempty by (intros ->; apply Hprev; reflexivity).
      cbn [negb Buffer_from bind]. now rewrite HexFacts.hex_decode_encode.
    - rewrite Haddr. unfold computeSignature, sign. apply verify_sign. }
  rewrite (fetch_then_verified reader _ _ Hv), Hkey.
  assert (extractResponse (_encKeyBuffer writer) (envelope_value sent)
          = Resolved (thaw snapshot)) as He.
  { apply codec_reads_back.
    - unfold snapshot. now rewrite well_formed_freeze, well_formed_thaw.
    - reflexivity.
    - change (prop "payload" (envelope_value sent)) with (Some (VStr (payload sent))).
      unfold sent. now rewrite create_body_payload. }
  assert (thaw snapshot = thaw v) as Ht
    by (unfold snapshot; now rewrite thaw_freeze, thaw_thaw).
  rewrite He, Ht, is_null_thaw.
  destruct (is_null v) eqn:Hn; cbn [settled record fst snd].
  - destruct v; try discriminate Hn. repeat split; reflexivity.
  - repeat split; reflexivity.
Qed.

(** X11: the envelope one record writes for a value is accepted by a
    fetch of any record with the same address and encryption key, when
    the server hands it back as it was sent: the fetch resolves with the
    value, and the reader ends on the chain hash the writer ends on and,
    unless the value is [null], on the same snapshot. The writer's prior
    hash may be absent but not empty, and the bytes it sends are not
    empty. *)
Theorem fetch_reads_create (writer reader : Metadata) (v : jsval) :
  well_formed v = true ->
  _address reader = getAddress (_signKey writer) ->
  _encKeyBuffer reader = _encKeyBuffer writer ->
  _magicHash writer <> Some [] ->
  encPayloadBuffer writer (Object_freeze (thaw v)) <> [] ->
  let snapshot := Object_freeze (thaw v) in
  let sent := create_body writer snapshot in
  let w := run (idle reader) [Fetch; Deliver (Response 200 (request_body sent))] in
  settled w = [(0, Resolved (thaw v))]
  /\ _magicHash (record w) = _magicHash (written writer snapshot)
  /\ _value (record w) = (if is_null v then _value reader else Some snapshot).
Proof. exact (reads_what_was_written writer reader v). Qed.

End Interop.

(** ** Calls that follow one another *)

Section Composition.
Context {C : Collaborators}.

Lemma same_json_snapshot (v : jsval) :
  same_json v (Some (Object_freeze (thaw v))) = true.
Proof.
  unfold same_json, stringify_value. cbn [option_map].
  rewrite stringify_freeze, JSONFacts.stringify_thaw. apply String.eqb_refl.
Qed.

Lemma create_delivered (this : Metadata) (v : jsval) (h : http_result) :
  well_formed v = true -> put_ok h = true ->
  run (idle this) [Create v; Deliver h]
  = {| record := written this (Object_freeze (thaw v)); queue := []; inflight := None;
       events := [Signed (message (encPayloadBuffer this (Object_freeze (thaw v)))
                                  (_magicHash this));
                  Sent PUT (_address this)
                       (Some (create_body this (Object_freeze (thaw v))))];
       settled := [(0, Resolved (Object_freeze (thaw v)))]; calls := 1 |}.
Proof.
  intros Hwf Hh. unfold run. cbn [fold_left step].
  rewrite create_idle by assumption. cbv zeta.
  unfold deliver. cbn [inflight record events settled calls queue].
  rewrite create_then_ok by assumption. reflexivity.
Qed.

(** X12: once [create(v)] has succeeded, [update(v)] with the same value
    sends nothing: the only envelope is the one of the create, and both
    calls resolve with the snapshot. *)
Theorem update_after_create (this : Metadata) (v : jsval) (h : http_result) :
  well_formed v = true -> put_ok h = true ->
  let snapshot := Object_freeze (thaw v) in
  let w := run (idle this) [Create v; Deliver h; Update v] in
  writes (events w) = [create_body this snapshot]
  /\ map snd (settled w) = [Resolved snapshot; Resolved snapshot]
  /\ record w = written this snapshot
  /\ inflight w = None.
Proof.
  intros Hwf Hh snapshot w. subst w.
  change (run (idle this) [Create v; Deliver h; Update v])
    with (step (run (idle this) [Create v; Deliver h]) (Update v)).
  rewrite create_delivered by assumption.
  cbn [step]. unfold update. cbn [record].
  change (_value (written this (Object_freeze (thaw v))))
    with (Some (Object_freeze (thaw v))).
  rewrite same_json_snapshot. unfold next.
  cbn [inflight queue record events settled calls app pump].
  rewrite toImmutable_snapshot by assumption.
  repeat split; reflexivity.
Qed.

(** X13: [update] compares with the value the record holds when it is
    called, not when its turn comes. Called right behind a [create(v1)]
    that has not completed, [update(v0)] with the value the record still
    holds sends nothing and resolves with [v0], although the record then
    holds [v1]; had the create been awaited, the same [update(v0)] would
    have written [v0]. *)
Theorem update_compares_at_call (this : Metadata) (u v0 v1 : jsval) (h : http_result) :
  well_formed v0 = true -> well_formed v1 = true ->
  _value this = Some u -> JSON.stringify u = JSON.stringify v0 ->
  JSON.stringify v0 <> JSON.stringify v1 ->
  put_ok h = true ->
  let s0 := Object_freeze (thaw v0) in
  let s1 := Object_freeze (thaw v1) in
  let w := run (idle this) [Create v1; Update v0; Deliver h] in
  let w' := run (idle this) [Create v1; Deliver h; Update v0] in
  writes (events w) = [create_body this s1]
  /\ map snd (settled w) = [Resolved s1; Resolved s0]
  /\ _value (record w) = Some s1
  /\ inflight w = None /\ queue w = []
  /\ writes (events w') = [create_body this s1; create_body (written this s1) s0].
Proof.
  intros Hw0 Hw1 Hval Hsame Hdiff Hh s0 s1 w w'.
  assert (same_json v0 (_value this) = true) as Hs.
  { apply same_json_iff. rewrite Hval. cbn. now rewrite Hsame. }
  assert (same_json v0 (Some s1) = false) as Hd.
  { destruct (same_json v0 (Some s1)) eqn:E; [|reflexivity].
    apply same_json_iff in E. cbn in E. injection E as E.
    unfold s1 in E. rewrite stringify_freeze, JSONFacts.stringify_thaw in E.
    now symmetry in E. }
  split; [|split; [|split; [|split; [|split]]]].
  1-5: subst w; unfold run; cbn [fold_left step];
    rewrite create_idle by assumption; cbv zeta;
    unfold update; cbn [record]; rewrite Hs; unfold next;
    cbn [inflight queue record events settled calls app];
    unfold deliver; cbn [inflight record events settled calls queue];
    rewrite create_then_ok by assumption; cbn [pump];
    rewrite toImmutable_snapshot by assumption; reflexivity.
  subst w'.
  change (run (idle this) [Create v1; Deliver h; Update v0])
    with (step (run (idle this) [Create v1; Deliver h]) (Update v0)).
  rewrite create_delivered by assumption.
  cbn [step]. unfold update. cbn [record].
  change (_value (written this (Object_freeze (thaw v1)))) with (Some s1).
  rewrite Hd. rewrite create_quiet by (assumption || reflexivity).
  reflexivity.
Qed.

(** X14: a [create] whose PUT is answered in the 2xx range with a body
    that is not JSON is rejected with the syntax error and leaves the
    record as it was, although the envelope was sent. *)
Theorem create_unparsed_answer (this : Metadata) (v : jsval) (status : Z)
  (body : string) :
  well_formed v = true ->
  (200 <= status < 300)%Z -> JSON.parse body = None ->
  let w := run (idle this) [Create v; Deliver (Response status body)] in
  writes (events w) = [create_body this (Object_freeze (thaw v))]
  /\ settled w = [(0, Rejected SyntaxError)]
  /\ record w = this.
Proof.
  intros Hwf Hs Hb w. subst w. unfold run. cbn [fold_left step].
  rewrite create_idle by assumption. cbv zeta.
  unfold deliver. cbn [inflight record events settled calls queue].
  assert (request PUT (Response status body) = Rejected SyntaxError) as ->.
  { cbn [request]. unfold checkStatus, JSON_parse.
    replace ((200 <=? status)%Z && (status <? 300)%Z) with true
      by (symmetry; apply andb_true_intro; split; [apply Z.leb_le | apply Z.ltb_lt]; lia).
    now rewrite Hb. }
  repeat split; reflexivity.
Qed.

(** X15: a request resolves in two cases only: a status from 200 to 299
    with a JSON body, and it resolves with the parsed body; or a GET
    answered 404, and it resolves with [null]. A PUT answered 404 is
    rejected with the text of the response, and a network failure with a
    connection error. *)
Theorem request_resolves (m : method) (status : Z) (body : string) (v : jsval) :
  (request m (Response status body) = Resolved v
   <-> ((200 <= status < 300)%Z /\ JSON.parse body = Some v)
       \/ (m = GET /\ status = 404%Z /\ v = VNull))
  /\ request PUT (Response 404 body) = Rejected (ResponseText body)
  /\ (forall e, request m (NetworkError e) = Rejected (ConnectError e)).
Proof.
  split; [|split; reflexivity].
  cbn [request]. unfold checkStatus, JSON_parse.
  destruct (Z.leb_spec 200 status); destruct (Z.ltb_spec status 300); cbn [andb].
  1: destruct (JSON.parse body) as [x|].
  all: try (destruct m; [destruct (Z.eqb_spec status 404)|]).
  all: split;
    [ intros E; try discriminate E; injection E as <-;
      ((left; split; [lia | reflexivity]) || (right; repeat split; assumption))
    | intros [[Hr E]|(Hm & Hst & Hv)];
      try lia; try discriminate; try congruence ].
Qed.

(** X16: [read] hands back the document of a plaintext response
    answered in the 2xx range without looking at its signature or prior
    hash; a 404 reads as [null]; and its failures come as the transport
    reports them, not as the single failure of [fetch]. *)
Theorem read_outcomes :
  (forall (status : Z) (e : envelope) (v : jsval),
     (200 <= status < 300)%Z ->
     well_formed v = true -> plain v = true ->
     payload e = BufferToB64 (StringToBuffer (JSON.stringify v)) ->
     read (Response status (request_body e)) = Resolved v)
  /\ (forall body, read (Response 404 body) = Resolved VNull)
  /\ (forall err, read (NetworkError err) = Rejected (ConnectError err))
  /\ (forall status body,
        ~ (200 <= status < 300)%Z -> status <> 404%Z ->
        read (Response status body) = Rejected (ResponseText body)).
Proof.
  split; [|split; [|split]]; try reflexivity.
  - intros status e v Hs Hwf Hplain Hp. unfold read.
    assert (request GET (Response status (request_body e))
            = Resolved (envelope_value e)) as ->.
    { cbn [request]. unfold checkStatus.
      replace ((200 <=? status)%Z && (status <? 300)%Z) with true
        by (symmetry; apply andb_true_intro; split;
            [apply Z.leb_le | apply Z.ltb_lt]; lia).
      unfold JSON_parse, request_body.
      rewrite JSONFacts.parse_stringify
        by (unfold envelope_value; destruct (prev_magic_hash e); reflexivity).
      unfold envelope_value. destruct (prev_magic_hash e); reflexivity. }
    cbn [bind]. rewrite extractResponse_payload by reflexivity.
    change (prop "payload" (envelope_value e)) with (Some (VStr (payload e))).
    cbn [Buffer_from bind]. rewrite Hp. unfold B64ToBuffer, BufferToB64.
    rewrite Base64Facts.base64_decode_encode.
    unfold BufferToString, StringToBuffer. rewrite string_of_list_byte_of_string.
    unfold JSON_parse. rewrite JSONFacts.parse_stringify by assumption.
    now rewrite JSONFacts.thaw_plain.
  - intros status body Hs Hn. unfold read. cbn [request]. unfold checkStatus.
    replace ((200 <=? status)%Z && (status <? 300)%Z) with false.
    + destruct (Z.eqb_spec status 404); [contradiction | reflexivity].
    + symmetry. destruct (Z.leb_spec 200 status); destruct (Z.ltb_spec status 300);
        try reflexivity. lia.
Qed.

Lemma length_hex (b : Buffer) : String.length (Hex.encode b) = 2 * List.length b.
Proof. induction b as [|x b IH]; [reflexivity|]. cbn [Hex.encode String.length List.length]. lia. Qed.

Lemma length_magic (p : Buffer) (h : option Buffer) : List.length (magic p h) = 32.
Proof. unfold magic, magicHash, hash256. apply length_sha256. Qed.

Lemma hash_sized_eq (this : Metadata) (a : Buffer) :
  _magicHash this = Some a -> List.length a = 32 -> hash_sized this.
Proof. intros E L x Hx. rewrite E in Hx. injection Hx as <-. exact L. Qed.

Lemma step_hash_sized (w : world) (i : input) :
  hash_sized (record w) -> hash_sized (record (step w i)).
Proof.
  intros H. destruct i as [v|v| |h]; cbn [step].
  - now rewrite create_record.
  - now rewrite update_record.
  - unfold fetch. now rewrite next_record.
  - destruct (deliver_cases w h) as [->|(id & o & _ & ->)]; [exact H|].
    rewrite pump_record. destruct o as [p enc|].
    + destruct (request PUT h); [|exact H].
      eapply hash_sized_eq; [reflexivity | apply length_magic].
    + rewrite fetch_then_cases. destruct (request GET h) as [res|e]; [|exact H].
      destruct (verifyResponse _ res) as [[[res1 h']|]|e] eqn:Hv; try exact H.
      apply verifyResponse_accepted in Hv
        as (-> & sB & pB & mB & _ & _ & _ & _ & ->).
      destruct (extractResponse _ res) as [value|e]; cbn [fst].
      * eapply hash_sized_eq; [|apply length_magic].
        rewrite (proj2 (saveValue_identity _ _)). reflexivity.
      * eapply hash_sized_eq; [reflexivity | apply length_magic].
Qed.

Lemma run_hash_sized (w : world) (l : list input) :
  hash_sized (record w) -> hash_sized (record (run w l)).
Proof.
  unfold run. revert w. induction l as [|i l IH]; intros w H; [exact H|].
  cbn [fold_left]. apply IH. now apply step_hash_sized.
Qed.

(** X17: the chain hash of a record made by the constructor is, after
    any calls and answers, absent or 32 bytes long; so the
    [prev_magic_hash] of every envelope it would write is [null] or 64
    hexadecimal characters. *)
Theorem chain_hash_length (ecPair : ECPair) (encKeyBuffer : option Buffer)
  (typeId : arg) (l : list input) (v : jsval) :
  let this := record (run (idle (constructor ecPair encKeyBuffer typeId)) l) in
  (forall h, _magicHash this = Some h -> List.length h = 32)
  /\ (forall s, prev_magic_hash (create_body this v) = Some s -> String.length s = 64).
Proof.
  intros this.
  assert (hash_sized this) as H.
  { apply run_hash_sized. intros h. discriminate. }
  split; [exact H|].
  intros s. unfold create_body. cbn [prev_magic_hash].
  destruct (_magicHash this) as [h|] eqn:E; [|discriminate].
  intros [= <-]. rewrite length_hex, (H h E). reflexivity.
Qed.

End Composition.

(** ** Records derived from a wallet *)

Section Devices.
Context {C : Collaborators} {L : CipherLaws C} {S : SignatureLaws C}.

Lemma purpose_bound (purposeString : string) : (purpose_of purposeString < 2 ^ 31)%N.
Proof.
  unfold purpose_of.
  destruct (SHA256.words_of_bytes _) as [|w r]; [reflexivity|].
  apply N.le_lt_trans with (m := 0x7FFFFFFF%N); [apply N.land_le_r | reflexivity].
Qed.

(** X18: the purpose under which [masterToMetaNode] derives is below
    2^31 whatever the purpose string, so it is a valid index of a
    hardened child; for [Metadata.PURPOSE] it is 510742, and
    [fromMasterHDNode] is [fromMetadataHDNode] on that child of the
    master node. *)
Theorem purpose_31_bits (masterHDNode : HDNode) (purposeString : string) (typeId : Z) :
  (exists n : Z,
     masterToMetaNode masterHDNode purposeString = deriveHardened masterHDNode n
     /\ (0 <= n < 2 ^ 31)%Z)
  /\ fromMasterHDNode masterHDNode typeId
     = fromMetadataHDNode (deriveHardened masterHDNode 510742) typeId.
Proof.
  split.
  - exists (Z.of_N (purpose_of purposeString)). split; [reflexivity|].
    pose proof (purpose_bound purposeString) as H.
    change (2 ^ 31)%N with 2147483648%N in H. change (2 ^ 31)%Z with 2147483648%Z.
    lia.
  - unfold fromMasterHDNode, masterToMetaNode. now rewrite purpose_value.
Qed.

(** X19: a record derived for a payload type signs with the key of
    child 0' of the type's node, sits at the address of that key, and
    encrypts with a 32-byte key, the digest of the private key of child
    1'; and this still holds after any calls and answers. *)
Theorem derived_record (metadataHDNode : HDNode) (typeId : Z) (l : list input) :
  let this := record (run (idle (fromMetadataHDNode metadataHDNode typeId)) l) in
  let payloadTypeNode := deriveHardened metadataHDNode typeId in
  _signKey this = keyPair (deriveHardened payloadTypeNode 0)
  /\ _address this = getAddress (_signKey this)
  /\ (exists k, _encKeyBuffer this = Some k /\ List.length k = 32
                /\ k = sha256 (privateKeyBuffer (deriveHardened payloadTypeNode 1)))
  /\ _typeId this = (if (typeId =? 0)%Z then -1 else typeId)%Z.
Proof.
  intros this payloadTypeNode.
  pose proof (run_identity (idle (fromMetadataHDNode metadataHDNode typeId)) l) as H.
  fold this in H. unfold identity in H. injection H as _ Ht Ha Hs Hk.
  rewrite Hs, Ha, Hk, Ht. repeat split.
  eexists. split; [reflexivity|]. split; [apply length_sha256 | reflexivity].
Qed.

(** X20: two devices that derive their record from the same node and
    payload type understand each other at any point of the chain:
    whatever calls and answers each record has been through, the envelope
    the one would write for a value is accepted by a fetch of the other,
    which resolves with the value and ends on the chain hash of that
    write. The bytes sent are required not to be empty. *)
Theorem devices_converge (metadataHDNode : HDNode) (typeId : Z)
  (l l' : list input) (v : jsval) :
  let writer := record (run (idle (fromMetadataHDNode metadataHDNode typeId)) l) in
  let reader := record (run (idle (fromMetadataHDNode metadataHDNode typeId)) l') in
  let snapshot := Object_freeze (thaw v) in
  let sent := create_body writer snapshot in
  let w := run (idle reader) [Fetch; Deliver (Response 200 (request_body sent))] in
  well_formed v = true ->
  encPayloadBuffer writer snapshot <> [] ->
  settled w = [(0, Resolved (thaw v))]
  /\ _magicHash (record w)
     = Some (magic (encPayloadBuffer writer snapshot) (_magicHash writer))
  /\ _value (record w) = (if is_null v then _value reader else Some snapshot).
Proof.
  intros writer reader snapshot sent w Hwf Henc.
  pose proof (run_identity (idle (fromMetadataHDNode metadataHDNode typeId)) l) as Hw.
  pose proof (run_identity (idle (fromMetadataHDNode metadataHDNode typeId)) l') as Hr.
  fold writer in Hw. fold reader in Hr. rewrite <- Hw in Hr.
  unfold identity in Hr. injection Hr as _ _ Ha Hs Hk.
  assert (_address writer = getAddress (_signKey writer)) as Haddr.
  { unfold identity in Hw. injection Hw as _ _ Ha' Hs' _.
    rewrite Ha', Hs'. reflexivity. }
  assert (_magicHash writer <> Some []) as Hprev.
  { intros E.
    assert (hash_sized writer) as Hh
      by (apply run_hash_sized; intros h; discriminate).
    specialize (Hh [] E). discriminate Hh. }
  apply (reads_what_was_written writer reader v); try assumption.
  now rewrite Ha.
Qed.

End Devices.

(** ** The stand-in signature keeps the laws *)

Module DoubleLaws.
Import Double.

Lemma buffer_eqb_refl (b : Buffer) : buffer_eqb b b = true.
Proof.
  induction b as [|x b IH]; [reflexivity|]. cbn [buffer_eqb].
  rewrite IH. now rewrite (Byte.byte_dec_lb (eq_refl x)).
Qed.

Lemma signature_laws : SignatureLaws collaborators.
Proof.
  split.
  - intros key msg.
    cbn [Bitcoin_message_verify Bitcoin_message_sign getAddress collaborators].
    unfold verify, address_of, Double.sign.
    now rewrite HexFacts.hex_decode_encode, buffer_eqb_refl.
  - intros key msg E.
    cbn [Bitcoin_message_sign collaborators] in E. unfold Double.sign in E.
    apply (f_equal (@List.length byte)) in E. rewrite length_sha256 in E.
    discriminate E.
Qed.

#[export] Existing Instance signature_laws.

End DoubleLaws.

(** ** The further properties on runs of the stand-in *)

Module MoreRuns.
Import Double.


Lemma chained_creates_witness :
  Forall (fun v => well_formed v = true) [a1; a2]
  /\ forallb put_ok [ok; ok] = true
  /\ inflight (run (idle fresh) (map Create [a1; a2] ++ map Deliver [ok; ok])) = None.
Proof.
  assert (Forall (fun v => well_formed v = true) [a1; a2]) as Hwf
    by (repeat constructor).
  split; [exact Hwf|]. split; [reflexivity|].
  apply (chained_creates fresh [a1; a2] [ok; ok] Hwf); reflexivity.
Defined.

Lemma toImmutable_idempotent_witness :
  well_formed a1 = true
  /\ exists s, toImmutable a1 = Resolved s /\ toImmutable s = Resolved s
               /\ toImmutable (thaw a1) = Resolved s
               /\ JSON.stringify s = JSON.stringify a1.
Proof.
  split; [reflexivity|]. apply (toImmutable_idempotent a1). reflexivity.
Defined.





Lemma fetch_reads_create_witness :
  well_formed a1 = true
  /\ encPayloadBuffer fresh (Object_freeze (thaw a1)) <> []
  /\ settled (run (idle fresh)
                [Fetch;
                 Deliver (Response 200
                            (request_body
                               (create_body established (Object_freeze (thaw a1)))))])
     = [(0, Resolved (thaw a1))].
Proof.
  assert (encPayloadBuffer fresh (Object_freeze (thaw a1)) <> []) as Henc
    by (vm_compute; discriminate).
  split; [reflexivity|]. split; [exact Henc|].
  apply (fetch_reads_create (L := DoubleFacts.cipher_laws)
           (S := DoubleLaws.signature_laws) established fresh a1).
  - reflexivity.
  - reflexivity.
  - reflexivity.
  - vm_compute. discriminate.
  - exact Henc.
Defined.

Lemma update_after_create_witness :
  well_formed a1 = true /\ put_ok ok = true
  /\ writes (events (run (idle fresh) [Create a1; Deliver ok; Update a1]))
     = [create_body fresh (Object_freeze (thaw a1))].
Proof.
  split; [reflexivity|]. split; [reflexivity|].
  apply (update_after_create fresh a1 ok); reflexivity.
Defined.

Lemma update_compares_at_call_witness :
  _value established = Some a1
  /\ JSON.stringify a1 <> JSON.stringify a2
  /\ writes (events (run (idle established) [Create a2; Update a1; Deliver ok]))
     = [create_body established (Object_freeze (thaw a2))].
Proof.
  assert (JSON.stringify a1 <> JSON.stringify a2) as Hd
    by (vm_compute; discriminate).
  split; [reflexivity|]. split; [exact Hd|].
  apply (update_compares_at_call established a1 a1 a2 ok);
    (reflexivity || exact Hd).
Defined.

Lemma create_unparsed_answer_witness :
  well_formed a1 = true /\ JSON.parse "oops" = None
  /\ settled (run (idle fresh) [Create a1; Deliver (Response 200 "oops")])
     = [(0, Rejected SyntaxError)].
Proof.
  assert (JSON.parse "oops" = None) as Hp by (vm_compute; reflexivity).
  split; [reflexivity|]. split; [exact Hp|].
  apply (create_unparsed_answer fresh a1 200 "oops"); [reflexivity | lia | exact Hp].
Defined.

Lemma devices_converge_witness :
  well_formed a1 = true
  /\ encPayloadBuffer (record (run (idle (fromMetadataHDNode key 2)) [Create a2]))
       (Object_freeze (thaw a1)) <> []
  /\ settled
       (run (idle (record (run (idle (fromMetadataHDNode key 2)) [Fetch])))
          [Fetch;
           Deliver (Response 200
                      (request_body
                         (create_body
                            (record (run (idle (fromMetadataHDNode key 2)) [Create a2]))
                            (Object_freeze (thaw a1)))))])
     = [(0, Resolved (thaw a1))].
Proof.
  assert (encPayloadBuffer (record (run (idle (fromMetadataHDNode key 2)) [Create a2]))
            (Object_freeze (thaw a1)) <> []) as Henc
    by (vm_compute; discriminate).
  split; [reflexivity|]. split; [exact Henc|].
  apply (devices_converge (L := DoubleFacts.cipher_laws)
           (S := DoubleLaws.signature_laws) key 2 [Create a2] [Fetch] a1);
    [reflexivity | exact Henc].
Defined.

End MoreRuns.
